(** * PZDiscordEventPublisher: the poll-publish cycle of [index.ts]

    A shallow embedding of the relay-with-presence variant of [index.ts]
    (the one that declares [lastCount], [parsePlayerCount] and
    [updateChannelTopicIfChanged]) and the proofs of its specified
    properties.

    Conventions of the embedding.
    - A JavaScript string is a list of code units.  Code units are the
      256 values of [ascii], read as Latin-1; [isWhiteSpace],
      [toLowerChar] and [canonicalize] are the restrictions of the
      ECMAScript tables to that range.
    - A JavaScript [number] holding a count is a [Z]: an integer that is
      a double stands for itself and [+Infinity] is the integer 2^1024
      (the program only stores, compares and prints its counts).
      [Number(...)] of a string of digits rounds to the nearest double,
      ties to even, as the engines of Node and Deno do for every length
      of the string.
    - An [async] function is a state transformer returning a [completion];
      the outcomes of the calls into [rcon-client] and [discord.js] are
      read from an environment that may answer differently at every point
      of the history.
    - A fault is represented by its rendering [err.toString()], the only
      thing the program ever inspects of it. *)

From Stdlib Require Import List ZArith Lia Ascii Bool Arith.
From Stdlib Require String DecimalString DecimalPos DecimalZ.
Import ListNotations.
Import String.StringSyntax.
Delimit Scope string_scope with string.

(** ** Strings *)

Module JS.

Definition str := list ascii.

Definition lit (s : String.string) : str := String.list_ascii_of_string s.
Arguments lit s%_string.

Definition code (c : ascii) : nat := nat_of_ascii c.

Definition isEmpty (s : str) : bool :=
  match s with [] => true | _ :: _ => false end.

(** [WhiteSpace] and [LineTerminator] below U+0100: TAB, LF, VT, FF, CR,
    SP and NBSP.  This is the class of the regular expression atom [\s]
    and the set [String.prototype.trim] strips. *)
Definition isWhiteSpace (c : ascii) : bool :=
  let n := code c in
  ((9 <=? n) && (n <=? 13)) || (n =? 32) || (n =? 160).

(** The class of the atom [\d]. *)
Definition isDigit (c : ascii) : bool :=
  let n := code c in (48 <=? n) && (n <=? 57).

(** [String.prototype.toLowerCase], one code unit at a time: A-Z and the
    Latin-1 capitals (all of U+00C0..U+00DE but the multiplication sign). *)
Definition toLowerChar (c : ascii) : ascii :=
  let n := code c in
  if ((65 <=? n) && (n <=? 90))
     || ((192 <=? n) && (n <=? 222) && negb (n =? 215))
  then ascii_of_nat (n + 32) else c.

Definition toLowerCase (s : str) : str := map toLowerChar s.

(** [Canonicalize] of a regular expression with the [i] flag and without
    the [u] flag.  A code unit of 128 and above never canonicalizes to
    one below 128, so against the ASCII characters of the patterns of
    this program only a-z and A-Z fold together. *)
Definition canonicalize (c : ascii) : ascii :=
  let n := code c in
  if (97 <=? n) && (n <=? 122) then ascii_of_nat (n - 32) else c.

Fixpoint str_eqb (a b : str) : bool :=
  match a, b with
  | [], [] => true
  | x :: a', y :: b' => Ascii.eqb x y && str_eqb a' b'
  | _, _ => false
  end.

Fixpoint takeWhile (p : ascii -> bool) (s : str) : str :=
  match s with
  | c :: t => if p c then c :: takeWhile p t else []
  | [] => []
  end.

Fixpoint dropWhile (p : ascii -> bool) (s : str) : str :=
  match s with
  | c :: t => if p c then dropWhile p t else s
  | [] => []
  end.

(** [r] does not go on with a character of the class [P]. *)
Definition stopsAt (P : ascii -> bool) (r : str) : Prop :=
  match r with [] => True | c :: _ => P c = false end.

Definition isAscii (c : ascii) : bool := code c <? 128.

Definition trimStart (s : str) : str := dropWhile isWhiteSpace s.
Definition trimEnd (s : str) : str := rev (dropWhile isWhiteSpace (rev s)).
Definition trim (s : str) : str := trimEnd (trimStart s).

(** [response.replace(/\s+/g, "")]: every run of white space is removed. *)
Definition removeWhiteSpace (s : str) : str :=
  filter (fun c => negb (isWhiteSpace c)) s.

Fixpoint startsWith (needle s : str) : bool :=
  match needle, s with
  | [], _ => true
  | x :: n', y :: s' => Ascii.eqb x y && startsWith n' s'
  | _ :: _, [] => false
  end.

(** [String.prototype.includes]. *)
Fixpoint includes (needle s : str) : bool :=
  startsWith needle s ||
  match s with
  | [] => false
  | _ :: t => includes needle t
  end.

(** The relative index of [String.prototype.slice]: a negative index
    counts from the end, and every index is clamped to [0, len]. *)
Definition relIndex (len k : Z) : Z :=
  if (k <? 0)%Z then Z.max (len + k) 0 else Z.min k len.

Definition len (s : str) : Z := Z.of_nat (length s).

Definition slice (s : str) (b e : Z) : str :=
  let from := relIndex (len s) b in
  let to := relIndex (len s) e in
  firstn (Z.to_nat (to - from)) (skipn (Z.to_nat from) s).

(** The integer a string of decimal digits denotes. *)
Definition digitsToZ (ds : str) : Z :=
  fold_left (fun acc c => (10 * acc + (Z.of_nat (code c) - 48))%Z) ds 0%Z.

(** One step of reading a decimal number, and the characters of the
    digits of the standard library. *)
Definition digitStep (acc : Z) (c : ascii) : Z :=
  (10 * acc + (Z.of_nat (code c) - 48))%Z.

Definition uintChars (d : Decimal.uint) : str :=
  lit (DecimalString.NilEmpty.string_of_uint d).

(** Every integer up to 2^53 is a double. *)
Definition maxSafe : Z := 9007199254740992.

(** [+Infinity], as the first integer past the doubles. *)
Definition Infinity : Z := 2 ^ 1024.

(** The double nearest to an integer [z] (ties to the even significand),
    [+Infinity] when that is 2^1024 or more: above 2^53 a double has a
    significand of 53 bits, [shift] bits of [z] are rounded away. *)
Definition roundToDouble (z : Z) : Z :=
  if (z <=? maxSafe)%Z then z
  else
    let shift := (Z.log2 z - 52)%Z in
    let q := Z.shiftr z shift in
    let r := (z - Z.shiftl q shift)%Z in
    let half := Z.shiftl 1 (shift - 1) in
    let q' := if (half <? r)%Z || ((r =? half)%Z && Z.odd q)
              then (q + 1)%Z else q in
    let v := Z.shiftl q' shift in
    if (Infinity <=? v)%Z then Infinity else v.

(** [Number(ds)] for a string of decimal digits. *)
Definition toNumber (ds : str) : Z := roundToDouble (digitsToZ ds).

(** The decimal digits of an integer. *)
Definition decimal (z : Z) : str :=
  lit (DecimalString.NilZero.string_of_int (Z.to_int z)).

(** [Number::toString] looks for the fewest digits [k] and an exponent
    [n] such that [s * 10^(n-k)], with [s] of [k] digits, is read back
    as the number [v]; these are the [s] of [k] digits next to [v]. *)
Definition shortestCandidates (v k n : Z) : list (Z * Z) :=
  if (n <? k)%Z then []
  else
    let p := (10 ^ (n - k))%Z in
    let s0 := (v / p)%Z in
    map (fun s => (s, n))
      (filter (fun s => (10 ^ (k - 1) <=? s)%Z && (s <? 10 ^ k)%Z
                        && (roundToDouble (s * p) =? v)%Z)
              [s0; (s0 + 1)%Z]).

(** Of two candidates the one nearer to [v], the even one on a tie. *)
Definition closer (v k : Z) (a b : Z * Z) : Z * Z :=
  let da := Z.abs (fst a * 10 ^ (snd a - k) - v) in
  let db := Z.abs (fst b * 10 ^ (snd b - k) - v) in
  if (da <? db)%Z then a
  else if (db <? da)%Z then b
  else if Z.even (fst a) then a else b.

Definition closest (v k : Z) (cands : list (Z * Z)) : option (Z * Z) :=
  match cands with
  | [] => None
  | c :: rest => Some (fold_left (closer v k) rest c)
  end.

(** The digits [s], their number [k] and the exponent [n] of a number
    [v] of [D] decimal digits; 17 digits are enough for every double. *)
Fixpoint shortest (fuel : nat) (v k D : Z) : Z * Z * Z :=
  match fuel with
  | O => (v, D, D)
  | S fuel' =>
      match closest v k (shortestCandidates v k D
                           ++ shortestCandidates v k (D + 1)) with
      | Some (s, n) => (s, k, n)
      | None => shortest fuel' v (k + 1) D
      end
  end.

(** The digits followed by zeros up to 21 digits, the exponent form
    beyond. *)
Definition formatNumber (skn : Z * Z * Z) : str :=
  let '(s, k, n) := skn in
  let digits := decimal s in
  if (n <=? 21)%Z then digits ++ repeat "0"%char (Z.to_nat (n - k))
  else
    match digits with
    | d :: rest =>
        (d :: match rest with [] => [] | _ :: _ => "."%char :: rest end)
          ++ lit "e+" ++ decimal (n - 1)
    | [] => []
    end.

(** The rendering of a count inside a template literal,
    [Number::toString]: all the digits of an integer up to 2^53, the
    shortest digits that read back as the number above it, and
    "Infinity". *)
Definition numberToString (z : Z) : str :=
  if (z =? Infinity)%Z then lit "Infinity"
  else if (z <=? maxSafe)%Z then decimal z
  else formatNumber (shortest 17 z 1 (len (decimal z))).

End JS.

Import JS.

(** ** [splitMessage] *)

(** The [while] loop of [splitMessage].  The source loop has no bound of
    its own (with a [maxLen] of 0 or less its condition never fails, and
    the call ends only when the array of chunks cannot grow any more),
    so the embedding carries fuel and answers [None] when the fuel runs
    out before the loop condition fails. *)
Fixpoint splitMessage_loop (fuel : nat) (content : str) (maxLen start : Z)
    (chunks : list str) : option (list str) :=
  if (start <? len content)%Z then
    match fuel with
    | O => None
    | S fuel' =>
        let end_ := Z.min (start + maxLen) (len content) in
        splitMessage_loop fuel' content maxLen end_
          (chunks ++ [slice content start end_])
    end
  else Some chunks.

Definition splitMessage (fuel : nat) (content : str) (maxLen : Z)
    : option (list str) :=
  splitMessage_loop fuel content maxLen 0 [].

(** Every chunk but the last one is full. *)
Fixpoint fullButLast (M : Z) (cs : list str) : Prop :=
  match cs with
  | [] => True
  | c :: rest =>
      match rest with
      | [] => True
      | _ :: _ => len c = M /\ fullButLast M rest
      end
  end.

(** ceil(L / M) on integers. *)
Definition ceilDiv (L M : Z) : Z := ((L + M - 1) / M)%Z.

(** ** [parsePlayerCount] *)

Module Parser.

(** A pattern literal under the [i] flag, anchored at the head of [s];
    the rest of [s] when it matches. *)
Fixpoint matchLit (pat s : str) : option str :=
  match pat with
  | [] => Some s
  | p :: pat' =>
      match s with
      | c :: s' =>
          if Ascii.eqb (canonicalize c) (canonicalize p)
          then matchLit pat' s' else None
      | [] => None
      end
  end.

(** The greedy optional character [p?]. *)
Definition matchOpt (p : ascii) (s : str) : str :=
  match s with
  | c :: s' => if Ascii.eqb (canonicalize c) (canonicalize p) then s' else s
  | [] => s
  end.

(** [/Players?\s+connected\s*\((\d+)\)/i] anchored at the head of [s];
    the answer is capture group 1.  Every greedy quantifier of the
    pattern is followed by an atom outside its own class: the optional
    [s] by white space, [\s+] by the letter [c], [\s*] by an opening
    parenthesis and [\d+] by a closing one.  Giving back characters
    therefore never helps, and the backtracking matcher is this
    deterministic scan ([headerAt_sound] and [headerAt_complete] relate
    it to the language of the pattern). *)
Definition headerAt (s : str) : option str :=
  match matchLit (lit "player") s with
  | None => None
  | Some s1 =>
      let s2 := matchOpt "s"%char s1 in
      if isEmpty (takeWhile isWhiteSpace s2) then None
      else
        match matchLit (lit "connected") (dropWhile isWhiteSpace s2) with
        | None => None
        | Some s3 =>
            match matchLit (lit "(") (dropWhile isWhiteSpace s3) with
            | None => None
            | Some s4 =>
                let ds := takeWhile isDigit s4 in
                if isEmpty ds then None
                else
                  match matchLit (lit ")") (dropWhile isDigit s4) with
                  | None => None
                  | Some _ => Some ds
                  end
            end
        end
  end.

(** [text.match(re)] for a regular expression without the [g] flag: the
    match at the leftmost position where there is one. *)
Fixpoint matchHeader (s : str) : option str :=
  match headerAt s with
  | Some ds => Some ds
  | None =>
      match s with
      | [] => None
      | _ :: t => matchHeader t
      end
  end.

Definition LF : ascii := "010"%char.
Definition CR : ascii := "013"%char.

(** [text.split(/\r?\n/)]: the separators are CR LF and LF alone; a CR
    that no LF follows stays in its line. *)
Fixpoint splitLines (s : str) : list str :=
  match s with
  | [] => [[]]
  | c :: t =>
      if Ascii.eqb c LF then [] :: splitLines t
      else if Ascii.eqb c CR
              && match t with c' :: _ => Ascii.eqb c' LF | [] => false end
      then splitLines t
      else
        match splitLines t with
        | l :: ls => (c :: l) :: ls
        | [] => [[c]]
        end
  end.

Definition parsePlayerCount (resp : str) : Z :=
  let text := resp in
  match matchHeader text with
  | Some m1 => toNumber m1
  | None =>
      let lines :=
        filter (fun l => negb (isEmpty l)) (map trim (splitLines text)) in
      match lines with
      | [] => 0%Z
      | first :: _ =>
          let rest :=
            if includes (lit "player") (toLowerCase first)
            then tl lines else lines in
          Z.of_nat (length rest)
      end
  end.

(** The language of the header pattern, written out: [m] is a match
    whose capture group is [ds]. *)
Definition HeaderMatch (m ds : str) : Prop :=
  exists p s w1 c w2,
    m = p ++ s ++ w1 ++ c ++ w2 ++ lit "(" ++ ds ++ lit ")"
    /\ map canonicalize p = map canonicalize (lit "player")
    /\ (s = [] \/ map canonicalize s = map canonicalize (lit "s"))
    /\ w1 <> [] /\ forallb isWhiteSpace w1 = true
    /\ map canonicalize c = map canonicalize (lit "connected")
    /\ forallb isWhiteSpace w2 = true
    /\ ds <> [] /\ forallb isDigit ds = true.

(** Lines joined by LF. *)
Fixpoint joinLines (ls : list str) : str :=
  match ls with
  | [] => []
  | l :: rest =>
      match rest with
      | [] => l
      | _ :: _ => l ++ LF :: joinLines rest
      end
  end.

Definition noLF (l : str) : Prop := Forall (fun c => c <> LF) l.

Definition nonBlank (l : str) : bool := negb (isEmpty (trim l)).

End Parser.

Import Parser.


(** ** The cycle: state, environment and effects *)

Module Cycle.

(** A thrown value, as [err.toString()] renders it. *)
Definition fault := str.

(** How an awaited promise of a library call settles. *)
Inductive settled (A : Type) : Type :=
| Fulfilled (a : A)
| Rejected (e : fault).
Arguments Fulfilled {A} a.
Arguments Rejected {A} e.

(** What an observer of the process sees, in order. *)
Inductive event : Type :=
| ConsoleLog (msg : str)
| ConsoleError (msg : str) (err : fault)
| RconConnect (r : settled unit)
| RconSend (cmd : str) (r : settled str)
| RconEnd (r : settled unit)
| ChannelSend (text : str) (r : settled unit)
| SetTopic (topic : str) (r : settled unit)
| SetPresence (name : str) (r : settled unit)
| Sleep (ms : Z).

(** The channel object; [hasSetTopic] is the answer of
    ["setTopic" in targetChannel]. *)
Record TextChannel : Type := mkChannel { hasSetTopic : bool }.

(** The module-level variables [targetChannel] and [lastCount], the
    local variable [rcon] of the running [pollOnce] (whether it holds a
    session) and the history of the process. *)
Record state : Type := mkState {
  targetChannel : option TextChannel;
  lastCount : Z;
  rcon : bool;
  trace : list event
}.

(** The configuration and the behaviour of the two libraries: how each
    call settles, given everything that happened before it. *)
Record env : Type := mkEnv {
  RCON_HOST : str;
  RCON_PORT : str;
  clientUser : bool;
  connectResult : list event -> settled unit;
  sendResult : str -> list event -> settled str;
  endResult : list event -> settled unit;
  channelSendResult : str -> list event -> settled unit;
  setTopicResult : str -> list event -> settled unit;
  setPresenceResult : str -> list event -> settled unit
}.

(** How a statement completes: normally, by a throw, or never. *)
Inductive completion (A : Type) : Type :=
| Normal (a : A)
| Throw (e : fault)
| Hang.
Arguments Normal {A} a.
Arguments Throw {A} e.
Arguments Hang {A}.

Definition M (A : Type) : Type := state -> completion A * state.

Definition ret {A : Type} (a : A) : M A := fun st => (Normal a, st).

Definition bind {A B : Type} (m : M A) (k : A -> M B) : M B :=
  fun st =>
    match m st with
    | (Normal a, st') => k a st'
    | (Throw e, st') => (Throw e, st')
    | (Hang, st') => (Hang, st')
    end.

Notation "x <- m ;; k" := (bind m (fun x => k))
  (at level 61, m at next level, right associativity).
Notation "m ;; k" := (bind m (fun _ => k))
  (at level 61, right associativity).

(** [try { body } catch (err) { handler }]. *)
Definition try_catch {A : Type} (body : M A) (handler : fault -> M A) : M A :=
  fun st =>
    match body st with
    | (Throw e, st') => handler e st'
    | r => r
    end.

(** [try { body } finally { fin }]: [fin] runs after [body] however it
    completed, and an abrupt completion of [fin] replaces that of [body]. *)
Definition try_finally {A : Type} (body : M A) (fin : M unit) : M A :=
  fun st =>
    match body st with
    | (Hang, st') => (Hang, st')
    | (c, st') =>
        match fin st' with
        | (Normal _, st'') => (c, st'')
        | (Throw e, st'') => (Throw e, st'')
        | (Hang, st'') => (Hang, st'')
        end
    end.

Definition gets {A : Type} (f : state -> A) : M A := fun st => (Normal (f st), st).

Definition set_lastCount (n : Z) : M unit :=
  fun st => (Normal tt, mkState (targetChannel st) n (rcon st) (trace st)).

Definition set_rcon (b : bool) : M unit :=
  fun st => (Normal tt, mkState (targetChannel st) (lastCount st) b (trace st)).

Definition addEvent (e : event) (st : state) : state :=
  mkState (targetChannel st) (lastCount st) (rcon st) (trace st ++ [e]).

Definition addEvents (evs : list event) (st : state) : state :=
  mkState (targetChannel st) (lastCount st) (rcon st) (trace st ++ evs).

Definition record (e : event) : M unit := fun st => (Normal tt, addEvent e st).

(** [await] of a library call: the call is made, it settles as the
    environment says, and a rejection is thrown at the [await]. *)
Definition await {A : Type} (ev : settled A -> event)
    (result : list event -> settled A) : M A :=
  fun st =>
    let r := result (trace st) in
    (match r with Fulfilled a => Normal a | Rejected e => Throw e end,
     addEvent (ev r) st).

Definition console_log (msg : str) : M unit := record (ConsoleLog msg).
Definition console_error (msg : str) (err : fault) : M unit :=
  record (ConsoleError msg err).

(** [sleep(ms)]: the promise of a timer, which always resolves. *)
Definition sleep (ms : Z) : M unit := record (Sleep ms).

Definition COMMAND : str := lit "luacmd rconevents flush".

(** The state of a process that has resolved nothing yet. *)
Definition initialState : state := mkState None (-1) false [].

Definition isConnectionClosed (err : fault) : bool :=
  str_eqb (toLowerCase err) (lit "error: connection closed").

Definition topicText (count : Z) : str :=
  lit "Players online: " ++ numberToString count.

Definition presenceName (count : Z) : str :=
  numberToString count ++ lit " survivor"
    ++ (if (count =? 1)%Z then lit "" else lit "s") ++ lit " online".

Section WithEnv.

Variable E : env.

Definition updateChannelTopicIfChanged (count : Z) : M unit :=
  ch <- gets targetChannel ;;
  match ch with
  | None => ret tt
  | Some channel =>
      last <- gets lastCount ;;
      if (count =? last)%Z then ret tt
      else
        set_lastCount count ;;
        if hasSetTopic channel then
          try_catch
            (await (SetTopic (topicText count))
                   (setTopicResult E (topicText count)))
            (fun e => console_error (lit "Failed to set topic:") e)
        else ret tt
  end.

(** What a topic update for a changed count adds to the history [h]:
    the write when the channel has topics, and the report of its fault. *)
Definition topicEvents (channel : TextChannel) (count : Z) (h : list event)
    : list event :=
  if hasSetTopic channel then
    let r := setTopicResult E (topicText count) h in
    SetTopic (topicText count) r ::
      match r with
      | Fulfilled _ => []
      | Rejected e => [ConsoleError (lit "Failed to set topic:") e]
      end
  else [].

(** What [updateChannelTopicIfChanged] adds to the history [h] when it
    is called with [count] in the state [st]. *)
Definition topicUpdateEvents (st : state) (count : Z) (h : list event)
    : list event :=
  match targetChannel st with
  | Some channel =>
      if (count =? lastCount st)%Z then [] else topicEvents channel count h
  | None => []
  end.

(** [await client.user?.setPresence(...)]: no call when [client.user]
    is null. *)
Definition setPresence (count : Z) : M unit :=
  let name := presenceName count in
  if clientUser E
  then await (SetPresence name) (setPresenceResult E name)
  else ret tt.

(** The inner [try]/[catch] of [pollOnce]: the status query. *)
Definition playersQuery : M unit :=
  try_catch
    (playersResp <- await (RconSend (lit "players")) (sendResult E (lit "players")) ;;
     let count := parsePlayerCount playersResp in
     setPresence count ;;
     updateChannelTopicIfChanged count)
    (fun err =>
       if isConnectionClosed err then
         setPresence 0 ;;
         updateChannelTopicIfChanged 0
       else console_error (lit "RCON poll error:") err).

(** [splitMessage(trimmed)] with the default [maxLen]. *)
Definition callSplitMessage (content : str) : M (list str) :=
  fun st =>
    match splitMessage (length content) content 1900 with
    | Some parts => (Normal parts, st)
    | None => (Hang, st)
    end.

(** [for (const part of parts) await targetChannel.send(part)]. *)
Fixpoint sendParts (parts : list str) : M unit :=
  match parts with
  | [] => ret tt
  | part :: rest =>
      await (ChannelSend part) (channelSendResult E part) ;;
      sendParts rest
  end.

Definition pollingMessage : str :=
  lit "polling " ++ RCON_HOST E ++ lit ":" ++ RCON_PORT E.

(** The statements of the [try] block after the event query: the
    decision to publish and the publishing.  Every [return] of the
    source ends a branch here. *)
Definition pollOnce_publish (response : str) : M unit :=
  let trimmed := trim response in
  if isEmpty trimmed then console_log (lit "response empty")
  else
    ch <- gets targetChannel ;;
    match ch with
    | None => console_log (lit "targetChannel empty")
    | Some _ =>
        console_log (lit "response:") ;;
        console_log response ;;
        if isEmpty response || isEmpty (removeWhiteSpace response) then ret tt
        else
          parts <- callSplitMessage trimmed ;;
          sendParts parts
    end.

(** The [try] block of [pollOnce]. *)
Definition pollOnce_try : M unit :=
  console_log pollingMessage ;;
  await RconConnect (connectResult E) ;;
  set_rcon true ;;
  playersQuery ;;
  response <- await (RconSend COMMAND) (sendResult E COMMAND) ;;
  pollOnce_publish response.

(** The statements of the [try] block before the event query. *)
Definition pollOnce_prologue : M unit :=
  console_log pollingMessage ;;
  await RconConnect (connectResult E) ;;
  set_rcon true ;;
  playersQuery.

(** The [catch] block of [pollOnce]. *)
Definition pollOnce_catch (err : fault) : M unit :=
  (if isConnectionClosed err then console_log (lit "Connection closed.")
   else console_error (lit "RCON poll error:") err) ;;
  console_log (lit "waiting 1 minute...") ;;
  sleep (1000 * 60).

(** The [finally] block of [pollOnce]: [rcon?.end()], its fault ignored. *)
Definition pollOnce_finally : M unit :=
  try_catch
    (session <- gets rcon ;;
     if session then await RconEnd (endResult E) else ret tt)
    (fun _ => ret tt).

(** The declaration [let rcon: Rcon | null = null]. *)
Definition pollOnce_enter : M unit := set_rcon false.

Definition pollOnce : M unit :=
  pollOnce_enter ;;
  try_finally (try_catch pollOnce_try pollOnce_catch) pollOnce_finally.

(** What the [catch] block adds to the history. *)
Definition catchEvents (err : fault) : list event :=
  [ (if isConnectionClosed err then ConsoleLog (lit "Connection closed.")
     else ConsoleError (lit "RCON poll error:") err);
    ConsoleLog (lit "waiting 1 minute...");
    Sleep 60000 ].

(** What the [finally] block adds to the history. *)
Definition finallyEvents (st : state) : list event :=
  if rcon st then [RconEnd (endResult E (trace st))] else [].

End WithEnv.

Definition isSetTopic (e : event) : bool :=
  match e with SetTopic _ _ => true | _ => false end.

Definition isChannelSend (e : event) : bool :=
  match e with ChannelSend _ _ => true | _ => false end.

Definition isSleep (e : event) : bool :=
  match e with Sleep _ => true | _ => false end.

Definition isRconSend (e : event) : bool :=
  match e with RconSend _ _ => true | _ => false end.

Definition isPrimarySend (e : event) : bool :=
  match e with RconSend cmd _ => str_eqb cmd COMMAND | _ => false end.

(** The events of a quiet cycle: no publication and no cooldown. *)
Definition isQuiet (e : event) : bool :=
  negb (isChannelSend e || isSleep e).

(** The events that may precede the event query. *)
Definition isPreliminary (e : event) : bool :=
  negb (isChannelSend e || isSleep e || isPrimarySend e).

Definition notRconSend (e : event) : bool := negb (isRconSend e).

Definition isRconEnd (e : event) : bool :=
  match e with RconEnd _ => true | _ => false end.

Definition isSetPresence (e : event) : bool :=
  match e with SetPresence _ _ => true | _ => false end.

(** The events that may follow the event query: no presence, no topic
    and no further command. *)
Definition afterQuery (e : event) : bool :=
  negb (isSetPresence e || isSetTopic e || isRconSend e).





(** [st'] continues [st]: the channel is the same, [lastCount] too when
    [keep] asks for it, and the history grew by events of the class [p]. *)
Definition extends (p : event -> bool) (keep : bool) (st st' : state) : Prop :=
  targetChannel st' = targetChannel st
  /\ (keep = true -> lastCount st' = lastCount st)
  /\ exists evs, trace st' = trace st ++ evs /\ forallb p evs = true.

(** [m] always completes, and what it leaves continues what it found. *)
Definition runs (p : event -> bool) (keep : bool) {A : Type} (m : M A) : Prop :=
  forall st c st', m st = (c, st') -> c <> Hang /\ extends p keep st st'.

(** The state in which the [try] block of a [pollOnce] called in [st]
    starts. *)
Definition entered (st : state) : state :=
  mkState (targetChannel st) (lastCount st) false (trace st).

End Cycle.

Import Cycle.

(** ** Concrete runs *)

Module Scenario.

Definition closed : fault := lit "Error: Connection closed".
Definition timeout : fault := lit "Error: Timeout".
Definition forbidden : fault := lit "DiscordAPIError[50013]: Missing Permissions".

(** A server and a chat platform that answer every call. *)
Definition calm (players events : str) : env :=
  mkEnv (lit "pz.example.org") (lit "27015") true
    (fun _ => Fulfilled tt)
    (fun cmd _ => Fulfilled (if str_eqb cmd (lit "players") then players else events))
    (fun _ => Fulfilled tt)
    (fun _ _ => Fulfilled tt)
    (fun _ _ => Fulfilled tt)
    (fun _ _ => Fulfilled tt).

(** The chat platform refuses every topic write. *)
Definition topicRefused : env :=
  mkEnv (lit "pz.example.org") (lit "27015") true
    (fun _ => Fulfilled tt)
    (fun _ _ => Fulfilled (lit ""))
    (fun _ => Fulfilled tt)
    (fun _ _ => Fulfilled tt)
    (fun _ _ => Rejected forbidden)
    (fun _ _ => Fulfilled tt).

(** The server refuses every connection with [err]. *)
Definition unreachable (err : fault) : env :=
  mkEnv (lit "pz.example.org") (lit "27015") true
    (fun _ => Rejected err)
    (fun _ _ => Fulfilled (lit ""))
    (fun _ => Fulfilled tt)
    (fun _ _ => Fulfilled tt)
    (fun _ _ => Fulfilled tt)
    (fun _ _ => Fulfilled tt).

(** The status query fails with [err]; the event query answers [events]. *)
Definition statusFails (err : fault) (events : str) : env :=
  mkEnv (lit "pz.example.org") (lit "27015") true
    (fun _ => Fulfilled tt)
    (fun cmd _ => if str_eqb cmd (lit "players") then Rejected err
                  else Fulfilled events)
    (fun _ => Fulfilled tt)
    (fun _ _ => Fulfilled tt)
    (fun _ _ => Fulfilled tt)
    (fun _ _ => Fulfilled tt).

(** A process whose channel is resolved and that published nothing yet. *)
Definition ready : state := mkState (Some (mkChannel true)) (-1) false [].

End Scenario.

(** ** Successive topic updates *)

Module Topics.

(** [updateChannelTopicIfChanged] invoked with one count after the
    other, as successive cycles do. *)
Fixpoint updateAll (E : env) (counts : list Z) : M unit :=
  match counts with
  | [] => ret tt
  | count :: rest => updateChannelTopicIfChanged E count ;; updateAll E rest
  end.

(** The counts of a sequence that differ from the one before them,
    [last] being the one before the first. *)
Fixpoint changes (last : Z) (counts : list Z) : list Z :=
  match counts with
  | [] => []
  | count :: rest =>
      if (count =? last)%Z then changes last rest
      else count :: changes count rest
  end.

(** The topics written, in order. *)
Fixpoint topicsWritten (evs : list event) : list str :=
  match evs with
  | [] => []
  | SetTopic topic _ :: rest => topic :: topicsWritten rest
  | _ :: rest => topicsWritten rest
  end.

End Topics.

(** ** The loop of [splitMessage], one iteration at a time *)

Module Loop.

(** The variables [start] and [chunks] after one more run of the body
    of the [while] loop. *)
Definition body (content : str) (maxLen : Z) (s : Z * list str)
    : Z * list str :=
  let end_ := Z.min (fst s + maxLen) (len content) in
  (end_, snd s ++ [slice content (fst s) end_]).

(** The loop condition [start < content.length]. *)
Definition condition (content : str) (s : Z * list str) : bool :=
  (fst s <? len content)%Z.

(** The variables after [n] runs of the body. *)
Definition after (content : str) (maxLen : Z) (n : nat) : Z * list str :=
  Nat.iter n (body content maxLen) (0%Z, []).

End Loop.

(** ** Publishing against the actual history *)

Module Publish.

(** Sent from the history [h], every one of [parts] is accepted. *)
Fixpoint acceptedFrom (E : env) (h : list event) (parts : list str) : Prop :=
  match parts with
  | [] => True
  | part :: rest =>
      channelSendResult E part h = Fulfilled tt
      /\ acceptedFrom E (h ++ [ChannelSend part (Fulfilled tt)]) rest
  end.

Definition sent (part : str) : event := ChannelSend part (Fulfilled tt).

End Publish.

(** ** Frames *)

Module Frames.

(** Whatever [m] does, the state it leaves is related by [R] to the one
    it found. *)
Definition steps (R : state -> state -> Prop) {A : Type} (m : M A) : Prop :=
  forall st c st', m st = (c, st') -> R st st'.

(** The local [rcon] is not assigned. *)
Definition sameRcon (st st' : state) : Prop := rcon st' = rcon st.

Definition notRconEnd (e : event) : bool := negb (isRconEnd e).

Definition notSleep (e : event) : bool := negb (isSleep e).

(** Nothing reaches the channel: no message and no topic. *)
Definition offChannel (e : event) : bool :=
  negb (isChannelSend e || isSetTopic e).

(** From a state without a channel: still no channel, the same
    [lastCount], and nothing reached the channel. *)
Definition unresolved (st st' : state) : Prop :=
  targetChannel st = None ->
  targetChannel st' = None
  /\ lastCount st' = lastCount st
  /\ exists evs, trace st' = trace st ++ evs /\ forallb offChannel evs = true.

End Frames.

(** ** The relay without presence: the first [pollOnce] of [index.ts] *)

Module Relay.

Definition COMMAND : str := lit "luacmd rconevents peak".

(** The events this relay can make: every kind but a topic or a
    presence update, and of the commands only its own. *)
Definition isRelayEvent (e : event) : bool :=
  match e with
  | SetTopic _ _ => false
  | SetPresence _ _ => false
  | RconSend cmd _ => str_eqb cmd COMMAND
  | _ => true
  end.

Section WithEnv.

Variable E : env.

(** The [try] block: the response is sent as it came, in one message. *)
Definition pollOnce_try : M unit :=
  console_log (pollingMessage E) ;;
  await RconConnect (connectResult E) ;;
  set_rcon true ;;
  response <- await (RconSend COMMAND) (sendResult E COMMAND) ;;
  let trimmed := trim response in
  if isEmpty trimmed then console_log (lit "response empty")
  else
    ch <- gets targetChannel ;;
    match ch with
    | None => console_log (lit "targetChannel empty")
    | Some _ =>
        console_log (lit "response:") ;;
        console_log response ;;
        if isEmpty response || isEmpty (removeWhiteSpace response) then ret tt
        else await (ChannelSend response) (channelSendResult E response)
    end.

(** The [catch] and [finally] blocks are those of the other [pollOnce],
    statement for statement. *)
Definition pollOnce : M unit :=
  pollOnce_enter ;;
  try_finally (try_catch pollOnce_try pollOnce_catch) (pollOnce_finally E).

End WithEnv.

End Relay.

(** ** Startup: the [ready] handler *)

Module Startup.

(** What [client.channels.fetch] resolved to, when not null: whether
    its [type] is [ChannelType.GuildText], and the object the cast
    [ch as TextChannel] yields. *)
Record fetched : Type := mkFetched {
  isGuildText : bool;
  asTextChannel : TextChannel
}.

(** How the handler leaves the process: exited with a status, running
    with the interval timer armed, or inside a cycle that never ends. *)
Inductive started : Type :=
| ProcessExit (code : Z)
| TimerArmed
| NeverSettles.

Definition notTextChannel : fault :=
  lit "Error: DISCORD_CHANNEL_ID is not a text channel I can post in.".

Definition throw {A : Type} (e : fault) : M A := fun st => (Throw e, st).

Definition set_targetChannel (channel : TextChannel) : M unit :=
  fun st => (Normal tt, mkState (Some channel) (lastCount st) (rcon st) (trace st)).

(** [tag] and [pollMs] are the renderings of [client.user?.tag] and of
    [POLL_MS] inside the template literal. *)
Definition readyMessage (tag pollMs : str) : str :=
  lit "Logged in as " ++ tag ++ lit ". Polling every " ++ pollMs ++ lit " ms.".

Section WithEnv.

Variable E : env.

(** The [try] block of the handler, up to the first cycle; [fetch] is
    how [client.channels.fetch] settled. *)
Definition onReady_try (fetch : settled (option fetched)) (tag pollMs : str)
    : M unit :=
  ch <- (fun st =>
           (match fetch with
            | Fulfilled c => Normal c
            | Rejected e => Throw e
            end, st)) ;;
  match ch with
  | None => throw notTextChannel
  | Some c =>
      if negb (isGuildText c) then throw notTextChannel
      else
        set_targetChannel (asTextChannel c) ;;
        console_log (readyMessage tag pollMs) ;;
        pollOnce E
  end.

(** The handler: after the [try] block the timer is armed by
    [setInterval]; a fault is reported and ends the process with
    status 1. *)
Definition onReady (fetch : settled (option fetched)) (tag pollMs : str)
    (st : state) : started * state :=
  match onReady_try fetch tag pollMs st with
  | (Normal _, st') => (TimerArmed, st')
  | (Throw e, st') =>
      (ProcessExit 1,
       addEvent (ConsoleError (lit "Failed to initialize channel:") e) st')
  | (Hang, st') => (NeverSettles, st')
  end.

End WithEnv.

End Startup.

(** ** More concrete runs *)

Module Scenario2.

(** Every send of the text [bad] is refused with [err]. *)
Definition sendRefused (bad : str) (err : fault) (events : str) : env :=
  mkEnv (lit "pz.example.org") (lit "27015") true
    (fun _ => Fulfilled tt)
    (fun cmd _ => Fulfilled (if str_eqb cmd (lit "players") then lit "" else events))
    (fun _ => Fulfilled tt)
    (fun text _ => if str_eqb text bad then Rejected err else Fulfilled tt)
    (fun _ _ => Fulfilled tt)
    (fun _ _ => Fulfilled tt).

(** Every send after the first one is refused with [err]. *)
Definition laterSendsRefused (err : fault) : env :=
  mkEnv (lit "pz.example.org") (lit "27015") true
    (fun _ => Fulfilled tt)
    (fun _ _ => Fulfilled (lit ""))
    (fun _ => Fulfilled tt)
    (fun _ h => if existsb isChannelSend h then Rejected err else Fulfilled tt)
    (fun _ _ => Fulfilled tt)
    (fun _ _ => Fulfilled tt).

(** A process that has not resolved its channel. *)
Definition unready : state := initialState.

End Scenario2.
(** ** Proofs about [splitMessage] *)

Section SplitMessage.

Lemma ceilDiv_spec (L M : Z) :
  (0 < M)%Z -> (0 <= L)%Z ->
  ((ceilDiv L M - 1) * M < L <= ceilDiv L M * M)%Z.
Proof.
  intros HM HL. unfold ceilDiv.
  pose proof (Z.div_mod (L + M - 1) M ltac:(lia)) as E.
  pose proof (Z.mod_pos_bound (L + M - 1) M HM) as B.
  nia.
Qed.

Lemma slice_inside (s : str) (b e : Z) :
  (0 <= b <= e)%Z -> (e <= len s)%Z ->
  slice s b e = firstn (Z.to_nat (e - b)) (skipn (Z.to_nat b) s).
Proof.
  intros Hb He. unfold slice, relIndex.
  replace (b <? 0)%Z with false by (symmetry; apply Z.ltb_ge; lia).
  replace (e <? 0)%Z with false by (symmetry; apply Z.ltb_ge; lia).
  rewrite !Z.min_l by lia. reflexivity.
Qed.

Lemma ceilDiv_step (L M : Z) :
  (0 < M)%Z -> (0 < L)%Z ->
  ceilDiv L M = (1 + ceilDiv (L - Z.min M L) M)%Z.
Proof.
  intros HM HL. unfold ceilDiv.
  destruct (Z.le_gt_cases M L) as [Hle | Hgt].
  - rewrite Z.min_l by lia.
    replace (L + M - 1)%Z with ((L - M + M - 1) + 1 * M)%Z by lia.
    rewrite Z.div_add by lia. lia.
  - rewrite Z.min_r by lia.
    replace (L - L + M - 1)%Z with (M - 1)%Z by lia.
    rewrite (Z.div_small (M - 1) M) by lia.
    replace (L + M - 1)%Z with ((L - 1) + 1 * M)%Z by lia.
    rewrite Z.div_add by lia.
    rewrite Z.div_small by lia. lia.
Qed.

(** The loop invariant: entered at [start] with [chunks] collected so far,
    the loop ends and appends a chunking of the rest of [content]. *)
Lemma splitMessage_loop_spec (content : str) (maxLen : Z) :
  (0 < maxLen)%Z ->
  forall (fuel : nat) (start : Z) (chunks : list str),
    (0 <= start <= len content)%Z ->
    (len content - start <= Z.of_nat fuel)%Z ->
    exists cs,
      splitMessage_loop fuel content maxLen start chunks = Some (chunks ++ cs)
      /\ concat cs = skipn (Z.to_nat start) content
      /\ Forall (fun c => (len c <= maxLen)%Z) cs
      /\ Z.of_nat (length cs) = ceilDiv (len content - start) maxLen
      /\ fullButLast maxLen cs.
Proof.
  intros HM. induction fuel as [|fuel IH]; intros start chunks Hs Hf.
  - assert (start = len content) by lia. subst start.
    exists []. simpl. rewrite Z.ltb_irrefl, app_nil_r.
    repeat split; auto.
    + unfold len. rewrite Nat2Z.id, skipn_all. reflexivity.
    + unfold ceilDiv. rewrite Z.sub_diag. simpl.
      rewrite Z.div_small; lia.
  - cbn [splitMessage_loop].
    destruct (start <? len content)%Z eqn:Hlt.
    + apply Z.ltb_lt in Hlt.
      set (end_ := Z.min (start + maxLen) (len content)).
      assert (Hend : (start < end_ <= len content)%Z) by (unfold end_; lia).
      destruct (IH end_ (chunks ++ [slice content start end_])) as
        (cs & Hrun & Hcat & Hall & Hlen & Hfull); try lia.
      exists (slice content start end_ :: cs).
      rewrite Hrun, <- app_assoc. cbn [app concat length].
      assert (Hslice : slice content start end_ =
                firstn (Z.to_nat (end_ - start)) (skipn (Z.to_nat start) content))
        by (apply slice_inside; lia).
      repeat split; auto.
      * rewrite Hcat, Hslice.
        replace (Z.to_nat end_) with (Z.to_nat (end_ - start) + Z.to_nat start)
          by lia.
        rewrite <- skipn_skipn. apply firstn_skipn.
      * constructor; auto.
        rewrite Hslice. unfold len. rewrite length_firstn.
        unfold end_. lia.
      * rewrite Nat2Z.inj_succ, Hlen.
        rewrite (ceilDiv_step (len content - start) maxLen HM) by lia.
        replace (len content - start - Z.min maxLen (len content - start))%Z
          with (len content - end_)%Z by (unfold end_; lia).
        lia.
      * cbn [fullButLast]. destruct cs as [|c cs']; [exact I|].
        split; [|exact Hfull].
        assert (Hpos : (0 < ceilDiv (len content - end_) maxLen)%Z)
          by (rewrite <- Hlen; simpl; lia).
        assert (Hrest : (end_ < len content)%Z).
        { destruct (Z.eq_dec end_ (len content)) as [E|]; [|lia].
          rewrite E, Z.sub_diag in Hpos. unfold ceilDiv in Hpos.
          simpl in Hpos. rewrite Z.div_small in Hpos; lia. }
        rewrite Hslice. unfold len. rewrite length_firstn, length_skipn.
        unfold end_, len in *. lia.
    + apply Z.ltb_ge in Hlt.
      assert (start = len content) by lia. subst start.
      exists []. rewrite app_nil_r.
      repeat split; auto.
      * unfold len. rewrite Nat2Z.id, skipn_all. reflexivity.
      * unfold ceilDiv. rewrite Z.sub_diag. simpl.
        rewrite Z.div_small; lia.
Qed.

(** More fuel never changes an answer. *)
Lemma splitMessage_loop_fuel (content : str) (maxLen : Z) (fuel fuel' : nat) :
  fuel <= fuel' ->
  forall start chunks r,
    splitMessage_loop fuel content maxLen start chunks = Some r ->
    splitMessage_loop fuel' content maxLen start chunks = Some r.
Proof.
  revert fuel'. induction fuel as [|fuel IH]; intros fuel' Hle start chunks r.
  - destruct fuel'; cbn [splitMessage_loop];
      destruct (start <? len content)%Z; congruence.
  - destruct fuel' as [|fuel']; [lia|]. cbn [splitMessage_loop].
    destruct (start <? len content)%Z; [|congruence].
    apply IH. lia.
Qed.

(** With a positive [maxLen] the loop of [splitMessage] ends within
    [length content] iterations, whatever the content. *)
Lemma splitMessage_terminates (content : str) (maxLen : Z) (fuel : nat) :
  (0 < maxLen)%Z -> length content <= fuel ->
  exists chunks, splitMessage fuel content maxLen = Some chunks.
Proof.
  intros HM Hf.
  destruct (@splitMessage_loop_spec content maxLen HM fuel 0%Z []) as (cs & H & _).
  - unfold len. lia.
  - unfold len. lia.
  - exists cs. exact H.
Qed.

(** With [maxLen] 0 and a non-empty content the loop never ends. *)
Lemma splitMessage_zero_spins (content : str) (fuel : nat) :
  content <> [] -> splitMessage fuel content 0 = None.
Proof.
  intros Hne. unfold splitMessage. generalize (@nil str).
  assert (H0 : (0 <? len content)%Z = true).
  { apply Z.ltb_lt. unfold len. destruct content; [congruence | simpl; lia]. }
  induction fuel as [|fuel IH]; intros acc; cbn [splitMessage_loop]; rewrite H0.
  - reflexivity.
  - replace (Z.min (0 + 0) (len content)) with 0%Z
      by (unfold len; lia).
    apply IH.
Qed.

End SplitMessage.

(** C4. For a string of length L > 0 and a maximum chunk size M > 0,
    [splitMessage] ends (any fuel of at least L iterations is enough) and
    returns ceil(L/M) chunks, each of length at most M, whose in-order
    concatenation is the original string; for L = 5000 and M = 1900 the
    chunks have lengths 1900, 1900 and 1200. *)
Theorem splitMessage_chunks (content : str) (M : Z) :
  (0 < len content)%Z -> (0 < M)%Z ->
  exists chunks,
    (forall fuel, length content <= fuel ->
                  splitMessage fuel content M = Some chunks)
    /\ Z.of_nat (length chunks) = ceilDiv (len content) M
    /\ Forall (fun c => (len c <= M)%Z) chunks
    /\ concat chunks = content
    /\ (len content = 5000%Z -> M = 1900%Z ->
        map len chunks = [1900; 1900; 1200]%Z).
Proof.
  intros HL HM.
  destruct (@splitMessage_loop_spec content M HM (length content) 0%Z [])
    as (cs & Hrun & Hcat & Hall & Hlen & Hfull); try (unfold len; lia).
  exists cs. simpl in Hrun, Hcat. rewrite Z.sub_0_r in Hlen.
  repeat split; auto.
  - intros fuel Hf. unfold splitMessage.
    eapply splitMessage_loop_fuel; [exact Hf | exact Hrun].
  - intros E5000 E1900. subst M.
    unfold ceilDiv in Hlen. rewrite E5000 in Hlen.
    change ((5000 + 1900 - 1) / 1900)%Z with 3%Z in Hlen.
    destruct cs as [|c1 [|c2 [|c3 [|c4 cs]]]]; simpl in Hlen; try lia.
    assert (Hsum : (len c1 + len c2 + len c3 = 5000)%Z).
    { rewrite <- E5000, <- Hcat. simpl. unfold len.
      rewrite !length_app. simpl. lia. }
    cbn [fullButLast] in Hfull. destruct Hfull as (F1 & F2 & _).
    cbn [map]. rewrite F1, F2 in *. repeat f_equal. lia.
Qed.


Lemma splitMessage_chunks_witness :
  let content := repeat "x"%char 5000 in
  exists chunks,
    (forall fuel, length content <= fuel ->
                  splitMessage fuel content 1900 = Some chunks)
    /\ Z.of_nat (length chunks) = ceilDiv (len content) 1900
    /\ Forall (fun c => (len c <= 1900)%Z) chunks
    /\ concat chunks = content
    /\ (len content = 5000%Z -> 1900%Z = 1900%Z ->
        map len chunks = [1900; 1900; 1200]%Z).
Proof.
  intros content.
  apply (splitMessage_chunks content 1900).
  - vm_compute. reflexivity.
  - reflexivity.
Defined.
(** ** Proofs about the parser *)

Example parsePlayerCount_scenario :
  parsePlayerCount
    (lit "Players connected (2):" ++ LF :: lit "Alice" ++ LF :: lit "Bob")
  = 2%Z.
Proof. reflexivity. Qed.

Example parsePlayerCount_crlf :
  parsePlayerCount
    (lit "Player list" ++ CR :: LF :: lit " Alice " ++ CR :: LF :: LF
       :: lit "Bob" ++ [CR]) = 2%Z.
Proof. reflexivity. Qed.

(** Of two headers the leftmost one is captured, in the looser spelling
    the pattern allows too. *)
Example parsePlayerCount_first_header :
  parsePlayerCount (lit "player  CONNECTED(07) Players connected (3):") = 7%Z.
Proof. reflexivity. Qed.

Section CharFacts.

Ltac by_char c :=
  destruct c as [[] [] [] [] [] [] [] []]; vm_compute; congruence.

Lemma lower_canonicalize (c : ascii) :
  isAscii (toLowerChar c) = true ->
  canonicalize c = canonicalize (toLowerChar c).
Proof. by_char c. Qed.

Lemma lower_whitespace (c : ascii) :
  isWhiteSpace (toLowerChar c) = true -> isWhiteSpace c = true.
Proof. by_char c. Qed.

Lemma lower_paren (c : ascii) : toLowerChar c = "("%char -> c = "("%char.
Proof. by_char c. Qed.

Lemma whitespace_not_s (c : ascii) :
  isWhiteSpace c = true ->
  Ascii.eqb (canonicalize c) (canonicalize "s") = false.
Proof. by_char c. Qed.

Lemma canonical_c_not_whitespace (c : ascii) :
  canonicalize c = canonicalize "c" -> isWhiteSpace c = false.
Proof. by_char c. Qed.

End CharFacts.

Section Scanning.

Variable P : ascii -> bool.

Lemma takeWhile_app (w r : str) :
  forallb P w = true -> stopsAt P r -> takeWhile P (w ++ r) = w.
Proof.
  intros Hw Hr. induction w as [|c w IH]; simpl in *.
  - destruct r; simpl in *; [reflexivity | now rewrite Hr].
  - apply andb_prop in Hw. destruct Hw as [Hc Hw].
    rewrite Hc, IH; auto.
Qed.

Lemma dropWhile_app (w r : str) :
  forallb P w = true -> stopsAt P r -> dropWhile P (w ++ r) = r.
Proof.
  intros Hw Hr. induction w as [|c w IH]; simpl in *.
  - destruct r; simpl in *; [reflexivity | now rewrite Hr].
  - apply andb_prop in Hw. destruct Hw as [Hc Hw].
    rewrite Hc, IH; auto.
Qed.

Lemma takeWhile_dropWhile (s : str) : takeWhile P s ++ dropWhile P s = s.
Proof.
  induction s as [|c s IH]; simpl; [reflexivity|].
  destruct (P c); simpl; [now rewrite IH | reflexivity].
Qed.

Lemma takeWhile_all (s : str) : forallb P (takeWhile P s) = true.
Proof.
  induction s as [|c s IH]; simpl; [reflexivity|].
  destruct (P c) eqn:E; simpl; [now rewrite E | reflexivity].
Qed.

Lemma dropWhile_all (w : str) : forallb P w = true -> dropWhile P w = [].
Proof.
  intros Hw. rewrite <- (app_nil_r w). apply dropWhile_app; simpl; auto.
Qed.

Lemma dropWhile_some (w r : str) :
  forallb P w = false -> dropWhile P (w ++ r) = dropWhile P w ++ r.
Proof.
  induction w as [|c w IH]; simpl; [discriminate|].
  destruct (P c); simpl; auto.
Qed.

End Scanning.

Section HeaderPattern.

Lemma matchLit_app (pat p r : str) :
  map canonicalize p = map canonicalize pat -> matchLit pat (p ++ r) = Some r.
Proof.
  revert p. induction pat as [|a pat IH]; intros p H.
  - destruct p; [reflexivity | discriminate].
  - destruct p as [|c p]; [discriminate|].
    simpl in H. injection H as Hc Hp.
    simpl. rewrite Hc, Ascii.eqb_refl. now apply IH.
Qed.

Lemma matchLit_sound (pat s r : str) :
  matchLit pat s = Some r ->
  exists p, s = p ++ r /\ map canonicalize p = map canonicalize pat.
Proof.
  revert s. induction pat as [|a pat IH]; intros s H; simpl in H.
  - exists []. injection H as ->. auto.
  - destruct s as [|c s]; [discriminate|].
    destruct (Ascii.eqb (canonicalize c) (canonicalize a)) eqn:E; [|discriminate].
    apply Ascii.eqb_eq in E.
    destruct (IH _ H) as (p & -> & Hp).
    exists (c :: p). simpl. now rewrite E, Hp.
Qed.

(** The scan accepts every match of the pattern, whatever follows. *)
Lemma headerAt_complete (m ds rest : str) :
  HeaderMatch m ds -> headerAt (m ++ rest) = Some ds.
Proof.
  intros (p & s & w1 & c & w2 & -> & Hp & Hs & Hw1 & Hws1 & Hc & Hws2 & Hds & Hdig).
  unfold headerAt. rewrite <- !app_assoc.
  rewrite (matchLit_app _ _ _ Hp).
  assert (Hstop_c : forall r, stopsAt isWhiteSpace (c ++ r)).
  { intros r. destruct c as [|x c]; [discriminate|].
    simpl in Hc. injection Hc as Hx _. simpl.
    now apply canonical_c_not_whitespace. }
  assert (Hopt : matchOpt "s" (s ++ w1 ++ c ++ w2 ++ lit "(" ++ ds ++ lit ")" ++ rest)
                 = w1 ++ c ++ w2 ++ lit "(" ++ ds ++ lit ")" ++ rest).
  { destruct Hs as [-> | Hs].
    - destruct w1 as [|x w1]; [congruence|].
      simpl in Hws1. apply andb_prop in Hws1. destruct Hws1 as [Hx _].
      simpl. now rewrite (whitespace_not_s _ Hx).
    - destruct s as [|y [|? ?]]; try discriminate.
      simpl in Hs. injection Hs as Hy.
      simpl. now rewrite Hy. }
  rewrite Hopt. cbv zeta.
  rewrite (takeWhile_app _ _ _ Hws1 (Hstop_c _)).
  rewrite (dropWhile_app _ _ _ Hws1 (Hstop_c _)).
  destruct w1 as [|x w1]; [congruence|]. cbn [isEmpty].
  rewrite (matchLit_app _ _ _ Hc).
  rewrite (dropWhile_app _ _ _ Hws2) by reflexivity.
  rewrite (matchLit_app (lit "(") (lit "(") _) by reflexivity.
  rewrite (takeWhile_app _ _ _ Hdig) by reflexivity.
  rewrite (dropWhile_app _ _ _ Hdig) by reflexivity.
  destruct ds as [|d ds]; [congruence|]. reflexivity.
Qed.

(** Whatever the scan accepts is a match of the pattern. *)
Lemma headerAt_sound (s ds : str) :
  headerAt s = Some ds ->
  exists m rest, s = m ++ rest /\ HeaderMatch m ds.
Proof.
  unfold headerAt. intros H.
  destruct (matchLit (lit "player") s) as [s1|] eqn:E1; [|discriminate].
  destruct (matchLit_sound _ _ _ E1) as (p & -> & Hp).
  remember (matchOpt "s" s1) as s2 eqn:E2.
  destruct (isEmpty (takeWhile isWhiteSpace s2)) eqn:Ew1; [discriminate|].
  destruct (matchLit (lit "connected") (dropWhile isWhiteSpace s2)) as [s3|] eqn:E3;
    [|discriminate].
  destruct (matchLit_sound _ _ _ E3) as (c & Hc1 & Hc).
  destruct (matchLit (lit "(") (dropWhile isWhiteSpace s3)) as [s4|] eqn:E4;
    [|discriminate].
  destruct (matchLit_sound _ _ _ E4) as (o & Ho1 & Ho).
  destruct (isEmpty (takeWhile isDigit s4)) eqn:Eds; [discriminate|].
  destruct (matchLit (lit ")") (dropWhile isDigit s4)) as [s5|] eqn:E5;
    [|discriminate].
  destruct (matchLit_sound _ _ _ E5) as (q & Hq1 & Hq).
  injection H as <-.
  assert (o = lit "(").
  { destruct o as [|x [|? ?]]; try discriminate. simpl in Ho.
    injection Ho as Hx. f_equal.
    revert Hx. destruct x as [[] [] [] [] [] [] [] []]; vm_compute; congruence. }
  assert (q = lit ")").
  { destruct q as [|x [|? ?]]; try discriminate. simpl in Hq.
    injection Hq as Hx. f_equal.
    revert Hx. destruct x as [[] [] [] [] [] [] [] []]; vm_compute; congruence. }
  subst o q.
  assert (Hs1 : exists sopt, s1 = sopt ++ s2 /\
            (sopt = [] \/ map canonicalize sopt = map canonicalize (lit "s"))).
  { subst s2. unfold matchOpt. destruct s1 as [|x s1].
    - exists []. auto.
    - destruct (Ascii.eqb (canonicalize x) (canonicalize "s")) eqn:Ex.
      + apply Ascii.eqb_eq in Ex. exists [x]. split; [reflexivity|].
        right. simpl. now rewrite Ex.
      + exists []. auto. }
  destruct Hs1 as (sopt & -> & Hsopt).
  exists (p ++ sopt ++ takeWhile isWhiteSpace s2 ++ c
            ++ takeWhile isWhiteSpace s3 ++ lit "(" ++ takeWhile isDigit s4 ++ lit ")"),
         s5.
  split.
  - rewrite <- !app_assoc. do 2 f_equal.
    rewrite <- (takeWhile_dropWhile isWhiteSpace s2) at 1. f_equal.
    rewrite Hc1. f_equal.
    rewrite <- (takeWhile_dropWhile isWhiteSpace s3) at 1. f_equal.
    rewrite Ho1. f_equal.
    rewrite <- (takeWhile_dropWhile isDigit s4) at 1. f_equal.
    exact Hq1.
  - exists p, sopt, (takeWhile isWhiteSpace s2), c, (takeWhile isWhiteSpace s3).
    repeat split; auto using takeWhile_all.
    + intros E. rewrite E in Ew1. discriminate.
    + intros E. rewrite E in Eds. discriminate.
Qed.

(** A match that no earlier position matches is the one [match] finds. *)
Lemma matchHeader_first (pre s ds : str) :
  (forall i, i < length pre -> headerAt (skipn i (pre ++ s)) = None) ->
  headerAt s = Some ds ->
  matchHeader (pre ++ s) = Some ds.
Proof.
  induction pre as [|c pre IH]; intros Hpre Hs.
  - cbn [app]. destruct s; cbn [matchHeader]; now rewrite Hs.
  - pose proof (Hpre 0 ltac:(simpl; lia)) as H0. cbn [skipn app] in H0.
    cbn [app matchHeader]. rewrite H0.
    apply IH; auto.
    intros i Hi. apply (Hpre (S i)). simpl. lia.
Qed.

End HeaderPattern.

Lemma lower_to_canonical (c x : ascii) :
  toLowerChar c = x -> isAscii x = true -> canonicalize c = canonicalize x.
Proof. intros <- H. now apply lower_canonicalize. Qed.

(** The header's digits are what [Number] is applied to. *)
Lemma parsePlayerCount_header_digits (pre h ds post : str) :
  toLowerCase h = lit "players connected (" ->
  ds <> [] -> forallb isDigit ds = true ->
  (forall i, i < length pre ->
             headerAt (skipn i (pre ++ h ++ ds ++ lit "):" ++ post)) = None) ->
  parsePlayerCount (pre ++ h ++ ds ++ lit "):" ++ post) = toNumber ds.
Proof.
  intros Hh Hds Hdig Hfirst.
  assert (HM : HeaderMatch (h ++ ds ++ lit ")") ds).
  { destruct h as [|a1 [|a2 [|a3 [|a4 [|a5 [|a6 [|a7 [|a8 [|a9 [|a10
      [|a11 [|a12 [|a13 [|a14 [|a15 [|a16 [|a17 [|a18 [|a19 [|a20 h]]]]]]]]]]]]]]]]]]]];
      try discriminate.
    unfold toLowerCase in Hh. cbn [map lit String.list_ascii_of_string] in Hh.
    injection Hh as H1 H2 H3 H4 H5 H6 H7 H8 H9 H10 H11 H12 H13 H14 H15 H16 H17 H18 H19.
    exists [a1; a2; a3; a4; a5; a6], [a7], [a8],
           [a9; a10; a11; a12; a13; a14; a15; a16; a17], [a18].
    apply lower_paren in H19. subst a19.
    assert (W8 : isWhiteSpace a8 = true) by (apply lower_whitespace; rewrite H8; reflexivity).
    assert (W18 : isWhiteSpace a18 = true) by (apply lower_whitespace; rewrite H18; reflexivity).
    repeat split; auto; try discriminate.
    - cbn [map lit String.list_ascii_of_string].
      repeat (f_equal; try (apply lower_to_canonical; [assumption | reflexivity])).
    - right. cbn [map lit String.list_ascii_of_string].
      repeat (f_equal; try (apply lower_to_canonical; [assumption | reflexivity])).
    - cbn [forallb]. now rewrite W8.
    - cbn [map lit String.list_ascii_of_string].
      repeat (f_equal; try (apply lower_to_canonical; [assumption | reflexivity])).
    - cbn [forallb]. now rewrite W18. }
  unfold parsePlayerCount.
  rewrite (matchHeader_first pre (h ++ ds ++ lit "):" ++ post) ds); auto.
  replace (h ++ ds ++ lit "):" ++ post)
    with ((h ++ ds ++ lit ")") ++ lit ":" ++ post)
    by (rewrite <- !app_assoc; reflexivity).
  now apply headerAt_complete.
Qed.

Section Numbers.

Lemma uintChars_digits (d : Decimal.uint) : forallb isDigit (uintChars d) = true.
Proof.
  unfold uintChars, lit.
  induction d; cbn [DecimalString.NilEmpty.string_of_uint
                      String.list_ascii_of_string forallb]; auto.
Qed.

Lemma fold_uint_acc (d : Decimal.uint) (acc : positive) :
  fold_left digitStep (uintChars d) (Zpos acc) = Zpos (Pos.of_uint_acc d acc).
Proof.
  unfold uintChars, lit. revert acc.
  induction d; intros acc;
    cbn [DecimalString.NilEmpty.string_of_uint String.list_ascii_of_string
           fold_left Pos.of_uint_acc];
    [reflexivity
    | rewrite <- IHd; f_equal; unfold digitStep;
      match goal with
      | |- context [Z.of_nat (code ?c)] =>
          let v := eval vm_compute in (Z.of_nat (code c)) in
          change (Z.of_nat (code c)) with v
      end; lia ..].
Qed.

Lemma fold_uint (d : Decimal.uint) :
  fold_left digitStep (uintChars d) 0%Z = Z.of_N (Pos.of_uint d).
Proof.
  unfold uintChars, lit.
  induction d;
    cbn [DecimalString.NilEmpty.string_of_uint String.list_ascii_of_string
           fold_left Pos.of_uint];
    [reflexivity | exact IHd | ..];
    (match goal with
     | |- fold_left _ _ ?a = _ =>
         let k := eval vm_compute in a in change a with k
     end;
     exact (fold_uint_acc d _)).
Qed.

Lemma decimal_uint (N : Z) :
  (0 <= N)%Z ->
  exists d, d <> Decimal.Nil /\ decimal N = uintChars d
            /\ Z.of_N (Pos.of_uint d) = N.
Proof.
  intros HN. unfold decimal, uintChars.
  pose proof (DecimalZ.of_to N) as Hof.
  destruct N as [|p|p]; [| |lia].
  - exists (Decimal.D0 Decimal.Nil). repeat split. discriminate.
  - cbn [Z.to_int] in *. exists (Pos.to_uint p).
    pose proof (DecimalPos.Unsigned.to_uint_nonnil p) as Hnn.
    split; [exact Hnn|]. split.
    + cbn [DecimalString.NilZero.string_of_int DecimalString.NilZero.string_of_uint].
      destruct (Pos.to_uint p); [congruence | reflexivity ..].
    + cbn [Z.of_int Z.of_uint] in Hof. exact Hof.
Qed.

Lemma fold_zeros (zeros : nat) (rest : str) :
  fold_left digitStep (repeat "0"%char zeros ++ rest) 0%Z
  = fold_left digitStep rest 0%Z.
Proof. induction zeros as [|k IH]; [reflexivity | exact IH]. Qed.

(** Reading the decimal digits of [N], after any zeros, gives [N]. *)
Lemma digitsToZ_decimal (zeros : nat) (N : Z) :
  (0 <= N)%Z -> digitsToZ (repeat "0"%char zeros ++ decimal N) = N.
Proof.
  intros HN. destruct (decimal_uint N HN) as (d & _ & -> & Hd).
  unfold digitsToZ. change (fold_left digitStep (repeat "0"%char zeros ++ uintChars d) 0%Z = N).
  rewrite fold_zeros, fold_uint. exact Hd.
Qed.

Lemma decimal_digits (zeros : nat) (N : Z) :
  (0 <= N)%Z ->
  forallb isDigit (repeat "0"%char zeros ++ decimal N) = true
  /\ repeat "0"%char zeros ++ decimal N <> [].
Proof.
  intros HN. destruct (decimal_uint N HN) as (d & Hnn & -> & _). split.
  - rewrite forallb_app, uintChars_digits, andb_true_r.
    induction zeros as [|k IH]; [reflexivity | exact IH].
  - intros H. apply app_eq_nil in H. destruct H as [_ H].
    destruct d; try congruence; discriminate.
Qed.

Lemma roundToDouble_safe (z : Z) : (z <= maxSafe)%Z -> roundToDouble z = z.
Proof.
  intros H. unfold roundToDouble.
  now replace (z <=? maxSafe)%Z with true by (symmetry; apply Z.leb_le; exact H).
Qed.

Lemma roundToDouble_nonneg (z : Z) : (0 <= z)%Z -> (0 <= roundToDouble z)%Z.
Proof.
  intros H. unfold roundToDouble.
  destruct (z <=? maxSafe)%Z; [exact H|]. cbv zeta.
  match goal with |- context [(Infinity <=? ?v)%Z] => destruct (Infinity <=? v)%Z end.
  - unfold Infinity. apply Z.pow_nonneg. lia.
  - apply Z.shiftl_nonneg.
    assert (0 <= Z.shiftr z (Z.log2 z - 52))%Z by (apply Z.shiftr_nonneg; exact H).
    match goal with |- context [if ?b then _ else _] => destruct b end; lia.
Qed.

End Numbers.

(** C5, as the code has it. A text whose first header match is
    "Players connected (N):" in any letter case, N written in decimal
    (leading zeros allowed), yields [Number(N)], whatever precedes the
    header and however many lines follow it: exactly N for every N up
    to 2^53, and in general the double nearest to N. *)
Theorem parsePlayerCount_header (pre h post : str) (zeros : nat) (N : Z) :
  toLowerCase h = lit "players connected (" ->
  (0 <= N)%Z ->
  (forall i, i < length pre ->
     headerAt (skipn i (pre ++ h ++ (repeat "0"%char zeros ++ decimal N)
                          ++ lit "):" ++ post)) = None) ->
  parsePlayerCount
    (pre ++ h ++ (repeat "0"%char zeros ++ decimal N) ++ lit "):" ++ post)
  = roundToDouble N
  /\ ((N <= 9007199254740992)%Z ->
      parsePlayerCount
        (pre ++ h ++ (repeat "0"%char zeros ++ decimal N) ++ lit "):" ++ post)
      = N).
Proof.
  intros Hh HN Hfirst.
  destruct (decimal_digits zeros N HN) as [Hdig Hne].
  rewrite (parsePlayerCount_header_digits pre h _ post Hh Hne Hdig Hfirst).
  unfold toNumber. rewrite (digitsToZ_decimal zeros N HN).
  split; [reflexivity|]. intros Hsafe. now apply roundToDouble_safe.
Qed.

(** The claim C5 fails above 2^53: the count of the header
    "Players connected (9007199254740993):" is 9007199254740992. *)
Lemma parsePlayerCount_rounds_large_count :
  parsePlayerCount (lit "Players connected (9007199254740993):")
  = 9007199254740992%Z
  /\ parsePlayerCount (lit "Players connected (9007199254740993):")
     <> 9007199254740993%Z.
Proof.
  assert (H : parsePlayerCount (lit "Players connected (9007199254740993):")
              = 9007199254740992%Z) by (vm_compute; reflexivity).
  split; [exact H|]. rewrite H. discriminate.
Qed.

Section Lines.

Lemma dropWhile_snoc_whitespace (x : str) (c : ascii) :
  isWhiteSpace c = true ->
  dropWhile isWhiteSpace (rev (dropWhile isWhiteSpace (x ++ [c])))
  = dropWhile isWhiteSpace (rev (dropWhile isWhiteSpace x)).
Proof.
  intros Hc. destruct (forallb isWhiteSpace x) eqn:E.
  - rewrite (dropWhile_all _ x E).
    rewrite (dropWhile_all _ (x ++ [c])); [reflexivity|].
    rewrite forallb_app, E. simpl. now rewrite Hc.
  - rewrite (dropWhile_some _ x [c] E), rev_app_distr. simpl. now rewrite Hc.
Qed.

Lemma trim_CR (x : str) : trim (x ++ [CR]) = trim x.
Proof.
  unfold trim, trimEnd, trimStart. f_equal.
  now apply dropWhile_snoc_whitespace.
Qed.

Lemma splitLines_nonempty (s : str) : splitLines s <> [].
Proof.
  induction s as [|c s IH]; simpl; [discriminate|].
  destruct (Ascii.eqb c LF); [discriminate|].
  destruct (Ascii.eqb c CR && _); [exact IH|].
  destruct (splitLines s); discriminate.
Qed.

Lemma splitLines_line (l : str) : noLF l -> splitLines l = [l].
Proof.
  induction 1 as [|c l Hc Hl IH]; [reflexivity|].
  cbn [splitLines]. apply Ascii.eqb_neq in Hc. rewrite Hc.
  replace (match l with c' :: _ => Ascii.eqb c' LF | [] => false end) with false.
  - rewrite andb_false_r, IH. reflexivity.
  - destruct Hl as [|c' l' Hc' _]; [reflexivity|].
    apply Ascii.eqb_neq in Hc'. now rewrite Hc'.
Qed.

(** The line before a separator, up to the CR the separator may take. *)
Lemma splitLines_app_LF (l r : str) :
  noLF l ->
  exists x, splitLines (l ++ LF :: r) = x :: splitLines r
            /\ (x = l \/ l = x ++ [CR]).
Proof.
  induction 1 as [|c l Hc Hl IH].
  - exists []. simpl. auto.
  - destruct IH as (x & Hx & Hrel).
    cbn [app splitLines]. apply Ascii.eqb_neq in Hc. rewrite Hc.
    destruct l as [|c' l'].
    + cbn [app] in *. rewrite Ascii.eqb_refl, andb_true_r.
      destruct (Ascii.eqb c CR) eqn:Ecr.
      * apply Ascii.eqb_eq in Ecr. subst c.
        exists []. cbn [splitLines]. rewrite Ascii.eqb_refl. split; auto.
      * rewrite Hx. exists (c :: x). split; [reflexivity|].
        destruct Hrel as [-> | Hrel]; [auto|].
        destruct x; discriminate.
    + inversion Hl as [|? ? Hc' _]; subst.
      apply Ascii.eqb_neq in Hc'. cbn [app]. rewrite Hc', andb_false_r.
      cbn [app] in Hx. rewrite Hx.
      exists (c :: x). split; [reflexivity|].
      destruct Hrel as [-> | ->]; [left | right]; reflexivity.
Qed.

Lemma lines_of_join (ls : list str) :
  Forall noLF ls -> ls <> [] ->
  map trim (splitLines (joinLines ls)) = map trim ls.
Proof.
  induction 1 as [|l ls Hl Hls IH]; intros Hne; [congruence|].
  cbn [joinLines]. destruct ls as [|l' ls'].
  - now rewrite splitLines_line.
  - destruct (splitLines_app_LF l (joinLines (l' :: ls')) Hl) as (x & -> & Hrel).
    cbn [map]. rewrite IH by discriminate. f_equal.
    destruct Hrel as [-> | ->]; [reflexivity|].
    symmetry. apply trim_CR.
Qed.

Lemma filter_map_trim (ls : list str) :
  filter (fun l => negb (isEmpty l)) (map trim ls)
  = map trim (filter nonBlank ls).
Proof.
  induction ls as [|l ls IH]; simpl; [reflexivity|].
  unfold nonBlank at 1. destruct (negb (isEmpty (trim l))); simpl; now rewrite IH.
Qed.

End Lines.

(** C6. Without a header match the count is the number of non-blank
    lines, less the first of them when it contains "player" in any
    letter case: a "player" line followed by k non-blank lines yields k,
    k non-blank lines without such a first line yield k, and no
    non-blank line yields 0. *)
Theorem parsePlayerCount_fallback (ls : list str) :
  Forall noLF ls ->
  matchHeader (joinLines ls) = None ->
  parsePlayerCount (joinLines ls) =
    match filter nonBlank ls with
    | [] => 0%Z
    | first :: rest =>
        if includes (lit "player") (toLowerCase (trim first))
        then Z.of_nat (length rest)
        else Z.of_nat (S (length rest))
    end.
Proof.
  intros Hls Hno. unfold parsePlayerCount. rewrite Hno.
  destruct ls as [|l0 ls0].
  - reflexivity.
  - rewrite lines_of_join by (auto; discriminate).
    rewrite filter_map_trim.
    destruct (filter nonBlank (l0 :: ls0)) as [|first rest]; [reflexivity|].
    cbn [map]. destruct (includes (lit "player") (toLowerCase (trim first)));
      cbn [tl length]; now rewrite length_map.
Qed.

Lemma parsePlayerCount_header_witness :
  parsePlayerCount
    (lit "RCON> " ++ lit "PLAYERS Connected ("
       ++ (repeat "0"%char 1 ++ decimal 12) ++ lit "):" ++ LF :: lit "Alice")
  = roundToDouble 12
  /\ ((12 <= 9007199254740992)%Z ->
      parsePlayerCount
        (lit "RCON> " ++ lit "PLAYERS Connected ("
           ++ (repeat "0"%char 1 ++ decimal 12) ++ lit "):" ++ LF :: lit "Alice")
      = 12%Z).
Proof.
  apply (parsePlayerCount_header (lit "RCON> ") (lit "PLAYERS Connected (")
           (LF :: lit "Alice") 1 12).
  - reflexivity.
  - lia.
  - intros i Hi.
    do 6 (destruct i as [|i]; [reflexivity|]).
    simpl in Hi. lia.
Defined.

Lemma parsePlayerCount_fallback_witness :
  let ls := [lit "Player list:"; lit "Alice"; lit ""; lit " Bob "] in
  parsePlayerCount (joinLines ls) =
    match filter nonBlank ls with
    | [] => 0%Z
    | first :: rest =>
        if includes (lit "player") (toLowerCase (trim first))
        then Z.of_nat (length rest)
        else Z.of_nat (S (length rest))
    end.
Proof.
  intros ls.
  apply (parsePlayerCount_fallback ls).
  - unfold ls, noLF, lit. simpl.
    repeat (constructor; try discriminate).
  - reflexivity.
Defined.

Example parsePlayerCount_fallback_counts :
  parsePlayerCount
    (joinLines [lit "Player list:"; lit "Alice"; lit ""; lit " Bob "]) = 2%Z
  /\ parsePlayerCount (joinLines [lit "Alice"; lit "Bob"; lit "Carol"]) = 3%Z
  /\ parsePlayerCount (joinLines [lit "  "; lit ""]) = 0%Z.
Proof. repeat split. Qed.

(** ** Proofs about the cycle *)

Arguments lit : simpl never.

Section Runs.

Variable p : event -> bool.
Variable keep : bool.

Lemma extends_refl (st : state) : extends p keep st st.
Proof.
  repeat split; auto. exists []. now rewrite app_nil_r.
Qed.

Lemma extends_trans (a b c : state) :
  extends p keep a b -> extends p keep b c -> extends p keep a c.
Proof.
  intros (Hch1 & Hk1 & evs1 & Ht1 & Hp1) (Hch2 & Hk2 & evs2 & Ht2 & Hp2).
  repeat split.
  - congruence.
  - intros Hk. rewrite Hk2, Hk1; auto.
  - exists (evs1 ++ evs2). rewrite Ht2, Ht1, app_assoc. split; [reflexivity|].
    rewrite forallb_app, Hp1, Hp2. reflexivity.
Qed.

Lemma extends_addEvent (e : event) (st : state) :
  p e = true -> extends p keep st (addEvent e st).
Proof.
  intros He. repeat split; auto. exists [e]. simpl. now rewrite He.
Qed.

Lemma runs_ret {A : Type} (a : A) : runs p keep (ret a).
Proof.
  intros st c st' H. injection H as <- <-. split; [discriminate|].
  apply extends_refl.
Qed.

Lemma runs_gets {A : Type} (f : state -> A) : runs p keep (gets f).
Proof.
  intros st c st' H. injection H as <- <-. split; [discriminate|].
  apply extends_refl.
Qed.

Lemma runs_bind {A B : Type} (m : M A) (k : A -> M B) :
  runs p keep m -> (forall a, runs p keep (k a)) -> runs p keep (bind m k).
Proof.
  intros Hm Hk st c st' H. unfold bind in H.
  destruct (m st) as [cm stm] eqn:Em.
  destruct (Hm _ _ _ Em) as [Hh Hext].
  destruct cm as [a | e |]; [| | congruence].
  - destruct (Hk a _ _ _ H) as [Hh' Hext'].
    split; [assumption|]. eapply extends_trans; eassumption.
  - injection H as <- <-. split; [discriminate | assumption].
Qed.

Lemma runs_record (e : event) : p e = true -> runs p keep (record e).
Proof.
  intros He st c st' H. injection H as <- <-. split; [discriminate|].
  now apply extends_addEvent.
Qed.

Lemma runs_await {A : Type} (ev : settled A -> event)
    (result : list event -> settled A) :
  (forall r, p (ev r) = true) -> runs p keep (await ev result).
Proof.
  intros He st c st' H. unfold await in H. injection H as <- <-.
  split; [destruct (result (trace st)); discriminate|].
  now apply extends_addEvent.
Qed.

Lemma runs_set_rcon (b : bool) : runs p keep (set_rcon b).
Proof.
  intros st c st' H. injection H as <- <-. split; [discriminate|].
  repeat split; auto. exists []. simpl. now rewrite app_nil_r.
Qed.

Lemma runs_try_catch {A : Type} (body : M A) (handler : fault -> M A) :
  runs p keep body -> (forall e, runs p keep (handler e)) ->
  runs p keep (try_catch body handler).
Proof.
  intros Hb Hh st c st' H. unfold try_catch in H.
  destruct (body st) as [cb stb] eqn:Eb.
  destruct (Hb _ _ _ Eb) as [Hn Hext].
  destruct cb as [a | e |]; [| | congruence].
  - injection H as <- <-. split; [discriminate | assumption].
  - destruct (Hh e _ _ _ H) as [Hn' Hext'].
    split; [assumption|]. eapply extends_trans; eassumption.
Qed.

Lemma runs_try_finally {A : Type} (body : M A) (fin : M unit) :
  runs p keep body -> runs p keep fin -> runs p keep (try_finally body fin).
Proof.
  intros Hb Hf st c st' H. unfold try_finally in H.
  destruct (body st) as [cb stb] eqn:Eb.
  destruct (Hb _ _ _ Eb) as [Hn Hext].
  destruct (fin stb) as [cf stf] eqn:Ef.
  destruct (Hf _ _ _ Ef) as [Hn' Hext'].
  destruct cb as [a | e |]; [| | congruence];
    (destruct cf as [[] | e' |]; [| | congruence]);
    injection H as <- <-;
    (split; [discriminate | eapply extends_trans; eassumption]).
Qed.

End Runs.

Lemma runs_set_lastCount (p : event -> bool) (n : Z) :
  runs p false (set_lastCount n).
Proof.
  intros st c st' H. injection H as <- <-. split; [discriminate|].
  repeat split; auto; [discriminate|]. exists []. simpl. now rewrite app_nil_r.
Qed.

Lemma runs_forget (p : event -> bool) {A : Type} (m : M A) :
  runs p true m -> runs p false m.
Proof.
  intros Hm st c st' H. destruct (Hm _ _ _ H) as (Hn & Hch & _ & Hev).
  repeat split; auto. discriminate.
Qed.

Ltac runs_step :=
  match goal with
  | |- runs _ _ (ret _) => apply runs_ret
  | |- runs _ _ (gets _) => apply runs_gets
  | |- runs _ _ (set_rcon _) => apply runs_set_rcon
  | |- runs _ _ (set_lastCount _) => apply runs_set_lastCount
  | |- runs _ _ (record _) =>
      apply runs_record; first [reflexivity | solve [auto]]
  | |- runs _ _ (await _ _) =>
      apply runs_await; intros ?; first [reflexivity | solve [auto]]
  | |- runs _ _ (bind _ _) => apply runs_bind; [| intros ?]
  | |- runs _ _ (try_catch _ _) => apply runs_try_catch; [| intros ?]
  | |- runs _ _ (try_finally _ _) => apply runs_try_finally
  | |- runs _ _ (if ?b then _ else _) => destruct b
  | |- runs _ _ (match ?x with _ => _ end) => destruct x
  end.

Ltac runs_auto := repeat runs_step.

Section CycleRuns.

Variable E : env.
Variable p : event -> bool.

Hypothesis p_log : forall m, p (ConsoleLog m) = true.
Hypothesis p_error : forall m e, p (ConsoleError m e) = true.

Lemma runs_updateChannelTopicIfChanged (count : Z) :
  (forall t r, p (SetTopic t r) = true) ->
  runs p false (updateChannelTopicIfChanged E count).
Proof.
  intros Ht. unfold updateChannelTopicIfChanged, console_error. runs_auto.
Qed.

Lemma runs_setPresence (keep : bool) (count : Z) :
  (forall n r, p (SetPresence n r) = true) ->
  runs p keep (setPresence E count).
Proof.
  intros Hp. unfold setPresence. runs_auto.
Qed.

Lemma runs_playersQuery :
  (forall t r, p (SetTopic t r) = true) ->
  (forall n r, p (SetPresence n r) = true) ->
  (forall r, p (RconSend (lit "players") r) = true) ->
  runs p false (playersQuery E).
Proof.
  intros Ht Hp Hs. unfold playersQuery, console_error.
  runs_auto; auto using runs_setPresence, runs_updateChannelTopicIfChanged.
Qed.

Lemma runs_sendParts (keep : bool) (parts : list str) :
  (forall t r, p (ChannelSend t r) = true) ->
  runs p keep (sendParts E parts).
Proof.
  intros Hc. induction parts as [|part rest IH]; cbn [sendParts]; runs_auto.
  exact IH.
Qed.

Lemma runs_callSplitMessage (keep : bool) (content : str) :
  runs p keep (callSplitMessage content).
Proof.
  intros st c st' H. unfold callSplitMessage in H.
  destruct (splitMessage_terminates content 1900 (length content))
    as (chunks & Hc); [lia | lia |].
  rewrite Hc in H. injection H as <- <-. split; [discriminate|].
  apply extends_refl.
Qed.

End CycleRuns.

Section CycleShape.

Variable E : env.

Lemma addEvents_nil (st : state) : addEvents [] st = st.
Proof. destruct st. unfold addEvents. simpl. now rewrite app_nil_r. Qed.

Lemma pollOnce_catch_run (err : fault) (st : state) :
  pollOnce_catch err st = (Normal tt, addEvents (catchEvents err) st).
Proof.
  unfold pollOnce_catch, catchEvents, bind, console_log, console_error, sleep,
    record, addEvent, addEvents.
  destruct (isConnectionClosed err); simpl; now rewrite <- !app_assoc.
Qed.

Lemma pollOnce_finally_run (st : state) :
  pollOnce_finally E st = (Normal tt, addEvents (finallyEvents E st) st).
Proof.
  unfold pollOnce_finally, finallyEvents, try_catch, bind, gets, await, ret.
  destruct (rcon st).
  - destruct (endResult E (trace st)) as [[] | e]; reflexivity.
  - now rewrite addEvents_nil.
Qed.

(** [pollOnce] as its three blocks. *)
Lemma pollOnce_blocks (st : state) :
  pollOnce E st =
    match pollOnce_try E (entered st) with
    | (Normal _, st1) => (Normal tt, addEvents (finallyEvents E st1) st1)
    | (Throw err, st1) =>
        let st2 := addEvents (catchEvents err) st1 in
        (Normal tt, addEvents (finallyEvents E st2) st2)
    | (Hang, st1) => (Hang, st1)
    end.
Proof.
  unfold pollOnce, pollOnce_enter, bind, set_rcon, try_finally, try_catch.
  fold (entered st).
  destruct (pollOnce_try E (entered st)) as [[[] | err |] st1].
  - now rewrite pollOnce_finally_run.
  - rewrite pollOnce_catch_run. cbv zeta. now rewrite pollOnce_finally_run.
  - reflexivity.
Qed.

Lemma pollOnce_try_split (st : state) :
  pollOnce_try E st =
    (pollOnce_prologue E ;;
     response <- await (RconSend COMMAND) (sendResult E COMMAND) ;;
     pollOnce_publish E response) st.
Proof.
  unfold pollOnce_try, pollOnce_prologue, bind, console_log, record, await,
    set_rcon.
  destruct (connectResult E (trace (addEvent (ConsoleLog (pollingMessage E)) st)));
    [|reflexivity].
  destruct (playersQuery E _) as [[[] | |] st4]; reflexivity.
Qed.

Lemma runs_pollOnce_publish (p : event -> bool) (response : str) :
  (forall m, p (ConsoleLog m) = true) ->
  (forall t r, p (ChannelSend t r) = true) ->
  runs p true (pollOnce_publish E response).
Proof.
  intros Hl Hc. unfold pollOnce_publish, console_log. cbv zeta.
  runs_auto; auto using runs_sendParts, runs_callSplitMessage.
Qed.

Lemma runs_pollOnce_prologue (p : event -> bool) :
  (forall m, p (ConsoleLog m) = true) ->
  (forall m e, p (ConsoleError m e) = true) ->
  (forall r, p (RconConnect r) = true) ->
  (forall t r, p (SetTopic t r) = true) ->
  (forall n r, p (SetPresence n r) = true) ->
  (forall r, p (RconSend (lit "players") r) = true) ->
  runs p false (pollOnce_prologue E).
Proof.
  intros. unfold pollOnce_prologue, console_log.
  runs_auto; auto using runs_playersQuery.
Qed.

Lemma runs_pollOnce_try : runs (fun _ => true) false (pollOnce_try E).
Proof.
  intros st c st' H. rewrite pollOnce_try_split in H. revert st c st' H.
  change (runs (fun _ => true) false
            (pollOnce_prologue E ;;
             response <- await (RconSend COMMAND) (sendResult E COMMAND) ;;
             pollOnce_publish E response)).
  runs_auto; auto using runs_pollOnce_prologue.
  apply runs_forget. now apply runs_pollOnce_publish.
Qed.

End CycleShape.

(** C1. Whatever the libraries answer (a connect fault, a send fault, a
    publish fault or success everywhere), [pollOnce] returns normally:
    it neither throws nor fails to return. *)
Theorem pollOnce_never_throws (E : env) (st : state) :
  exists st', pollOnce E st = (Normal tt, st').
Proof.
  rewrite pollOnce_blocks.
  destruct (pollOnce_try E (entered st)) as [c st1] eqn:Htry.
  destruct (runs_pollOnce_try E _ _ _ Htry) as [Hn _].
  destruct c as [[] | err |]; [eauto | eauto | congruence].
Qed.

(** C10. While the channel is not resolved, [updateChannelTopicIfChanged]
    returns at once: the state, [lastCount] and the history with it, is
    left as it was, so no topic write is made. *)
Theorem updateChannelTopicIfChanged_unresolved (E : env) (count : Z) (st : state) :
  targetChannel st = None ->
  updateChannelTopicIfChanged E count st = (Normal tt, st).
Proof.
  intros Hch. unfold updateChannelTopicIfChanged, bind, gets.
  rewrite Hch. reflexivity.
Qed.

Lemma updateChannelTopicIfChanged_unresolved_witness :
  targetChannel initialState = None
  /\ updateChannelTopicIfChanged (Scenario.calm (lit "") (lit "")) 3 initialState
     = (Normal tt, initialState).
Proof.
  split; [reflexivity|].
  apply (updateChannelTopicIfChanged_unresolved
           (Scenario.calm (lit "") (lit "")) 3 initialState).
  reflexivity.
Defined.

Section TopicUpdate.

Variable E : env.

Lemma updateChannelTopicIfChanged_same (count : Z) (st : state) :
  count = lastCount st ->
  updateChannelTopicIfChanged E count st = (Normal tt, st).
Proof.
  intros ->. unfold updateChannelTopicIfChanged, bind, gets.
  destruct (targetChannel st); [|reflexivity].
  now rewrite Z.eqb_refl.
Qed.

Lemma updateChannelTopicIfChanged_differs (count : Z) (st : state)
    (channel : TextChannel) :
  targetChannel st = Some channel ->
  count <> lastCount st ->
  updateChannelTopicIfChanged E count st =
    (Normal tt,
     addEvents (topicEvents E channel count (trace st))
       (mkState (Some channel) count (rcon st) (trace st))).
Proof.
  intros Hch Hne. apply Z.eqb_neq in Hne.
  unfold updateChannelTopicIfChanged, bind, gets, set_lastCount, try_catch,
    await, console_error, record, topicEvents, addEvent, addEvents.
  rewrite Hch, Hne.
  destruct (hasSetTopic channel); cbn.
  - destruct (setTopicResult E (topicText count) (trace st)) as [[] | e];
      cbn; rewrite <- ?app_assoc, ?Hch; reflexivity.
  - now rewrite app_nil_r, Hch.
Qed.

Lemma topicEvents_one_write (channel : TextChannel) (count : Z) (h : list event) :
  length (filter isSetTopic (topicEvents E channel count h)) <= 1.
Proof.
  unfold topicEvents. destruct (hasSetTopic channel); [|simpl; lia].
  destruct (setTopicResult E (topicText count) h); simpl; lia.
Qed.

End TopicUpdate.

(** C2, as the code has it. For a resolved channel and a count that
    differs from [lastCount], [updateChannelTopicIfChanged] stores the
    count in [lastCount] before it attempts the topic write, so
    [lastCount] is the new count whether the write succeeds or fails;
    a failed write is reported, and the next invocation with the same
    count changes nothing and writes nothing. *)
Theorem updateChannelTopicIfChanged_stores_before_write
    (E : env) (count : Z) (st : state) (channel : TextChannel) :
  targetChannel st = Some channel ->
  count <> lastCount st ->
  exists st',
    updateChannelTopicIfChanged E count st = (Normal tt, st')
    /\ lastCount st' = count
    /\ trace st' = trace st ++ topicEvents E channel count (trace st)
    /\ updateChannelTopicIfChanged E count st' = (Normal tt, st').
Proof.
  intros Hch Hne.
  rewrite (updateChannelTopicIfChanged_differs E count st channel Hch Hne).
  eexists. split; [reflexivity|].
  repeat split. now apply updateChannelTopicIfChanged_same.
Qed.

Lemma updateChannelTopicIfChanged_stores_before_write_witness :
  exists st',
    updateChannelTopicIfChanged Scenario.topicRefused 2 Scenario.ready
      = (Normal tt, st')
    /\ lastCount st' = 2%Z
    /\ trace st' = trace Scenario.ready
         ++ topicEvents Scenario.topicRefused (mkChannel true) 2 (trace Scenario.ready)
    /\ updateChannelTopicIfChanged Scenario.topicRefused 2 st' = (Normal tt, st').
Proof.
  apply (updateChannelTopicIfChanged_stores_before_write
           Scenario.topicRefused 2 Scenario.ready (mkChannel true)).
  - reflexivity.
  - discriminate.
Defined.

(** The claim C2 fails where the topic write fails: [lastCount] moves
    from -1 to 2 although the write was rejected, and the next
    invocation with the count 2 does not retry it. *)
Lemma topic_write_failure_is_not_retried :
  exists st',
    updateChannelTopicIfChanged Scenario.topicRefused 2 Scenario.ready
      = (Normal tt, st')
    /\ trace st' =
         [ SetTopic (lit "Players online: 2") (Rejected Scenario.forbidden);
           ConsoleError (lit "Failed to set topic:") Scenario.forbidden ]
    /\ lastCount Scenario.ready = (-1)%Z
    /\ lastCount st' = 2%Z
    /\ lastCount st' <> lastCount Scenario.ready
    /\ updateChannelTopicIfChanged Scenario.topicRefused 2 st' = (Normal tt, st').
Proof.
  eexists. split; [reflexivity|].
  repeat split. discriminate.
Qed.

(** C8. Two invocations of [updateChannelTopicIfChanged] in a row with
    the same count make at most one topic write: the first one makes at
    most one, and the second one changes nothing. *)
Theorem updateChannelTopicIfChanged_idempotent (E : env) (count : Z) (st : state) :
  exists st1 evs,
    updateChannelTopicIfChanged E count st = (Normal tt, st1)
    /\ trace st1 = trace st ++ evs
    /\ length (filter isSetTopic evs) <= 1
    /\ updateChannelTopicIfChanged E count st1 = (Normal tt, st1).
Proof.
  destruct (targetChannel st) as [channel|] eqn:Hch.
  - destruct (Z.eq_dec count (lastCount st)) as [Heq | Hne].
    + exists st, []. rewrite app_nil_r.
      repeat split; auto using updateChannelTopicIfChanged_same.
    + rewrite (updateChannelTopicIfChanged_differs E count st channel Hch Hne).
      eexists. exists (topicEvents E channel count (trace st)).
      split; [reflexivity|].
      repeat split.
      * apply topicEvents_one_write.
      * now apply updateChannelTopicIfChanged_same.
  - exists st, []. rewrite app_nil_r.
    assert (H : updateChannelTopicIfChanged E count st = (Normal tt, st)).
    { unfold updateChannelTopicIfChanged, bind, gets. now rewrite Hch. }
    repeat split; auto.
Qed.

Section AfterPrologue.

Variable E : env.

Lemma catchEvents_notRconSend (err : fault) :
  forallb notRconSend (catchEvents err) = true.
Proof. unfold catchEvents. now destruct (isConnectionClosed err). Qed.

Lemma finallyEvents_notRconSend (st : state) :
  forallb notRconSend (finallyEvents E st) = true.
Proof. unfold finallyEvents. now destruct (rcon st). Qed.

Lemma finallyEvents_quiet (st : state) :
  forallb isQuiet (finallyEvents E st) = true.
Proof. unfold finallyEvents. now destruct (rcon st). Qed.

(** A cycle whose prologue threw: the cooldown, then the release. *)
Lemma pollOnce_prologue_throws (st stP : state) (err : fault) :
  pollOnce_prologue E (entered st) = (Throw err, stP) ->
  pollOnce E st =
    (Normal tt,
     let st2 := addEvents (catchEvents err) stP in
     addEvents (finallyEvents E st2) st2)
  /\ pollOnce_try E (entered st) = (Throw err, stP).
Proof.
  intros HP.
  assert (Htry : pollOnce_try E (entered st) = (Throw err, stP)).
  { rewrite pollOnce_try_split. unfold bind at 1. now rewrite HP. }
  split; [|exact Htry].
  rewrite pollOnce_blocks, Htry. reflexivity.
Qed.

(** A cycle whose prologue completed: the event query is issued, no
    other command follows it, [lastCount] stays, and when the answer is
    blank nothing is published and nothing sleeps. *)
Lemma pollOnce_after_prologue (st stP : state) :
  pollOnce_prologue E (entered st) = (Normal tt, stP) ->
  exists st' rest,
    pollOnce E st = (Normal tt, st')
    /\ trace st' =
         trace stP ++ RconSend COMMAND (sendResult E COMMAND (trace stP)) :: rest
    /\ lastCount st' = lastCount stP
    /\ forallb notRconSend rest = true
    /\ (forall resp,
          sendResult E COMMAND (trace stP) = Fulfilled resp ->
          isEmpty (trim resp) = true ->
          forallb isQuiet rest = true).
Proof.
  intros HP. rewrite pollOnce_blocks, pollOnce_try_split.
  unfold bind at 1. rewrite HP. unfold bind at 1, await at 1.
  set (r := sendResult E COMMAND (trace stP)).
  set (stB := addEvent (RconSend COMMAND r) stP).
  destruct r as [resp | err] eqn:Hr.
  - destruct (isEmpty (trim resp)) eqn:Hblank.
    + unfold pollOnce_publish. cbv zeta. rewrite Hblank.
      unfold console_log, record.
      eexists. exists (ConsoleLog (lit "response empty")
                         :: finallyEvents E (addEvent (ConsoleLog (lit "response empty")) stB)).
      split; [reflexivity|]. cbn [trace addEvents addEvent stB].
      repeat split.
      * now rewrite <- !app_assoc.
      * cbn [forallb]. now rewrite finallyEvents_notRconSend.
      * intros _ _ _. cbn [forallb]. now rewrite finallyEvents_quiet.
    + destruct (pollOnce_publish E resp stB) as [c stD] eqn:HD.
      destruct (runs_pollOnce_publish E notRconSend resp
                  ltac:(reflexivity) ltac:(reflexivity) _ _ _ HD)
        as (Hn & _ & Hkeep & evsD & HtD & HpD).
      specialize (Hkeep eq_refl).
      destruct c as [[] | err |]; [| | congruence].
      * eexists. exists (evsD ++ finallyEvents E stD).
        split; [reflexivity|]. cbn [trace addEvents lastCount].
        repeat split.
        -- rewrite HtD. cbn [trace addEvent stB]. now rewrite <- !app_assoc.
        -- exact Hkeep.
        -- now rewrite forallb_app, HpD, finallyEvents_notRconSend.
        -- intros resp' Hresp' Hblank'. injection Hresp' as <-. congruence.
      * eexists.
        exists (evsD ++ catchEvents err
                  ++ finallyEvents E (addEvents (catchEvents err) stD)).
        split; [reflexivity|]. cbn [trace addEvents lastCount].
        repeat split.
        -- rewrite HtD. cbn [trace addEvent stB]. now rewrite <- !app_assoc.
        -- exact Hkeep.
        -- now rewrite !forallb_app, HpD, catchEvents_notRconSend,
             finallyEvents_notRconSend.
        -- intros resp' Hresp' Hblank'. injection Hresp' as <-. congruence.
  - eexists.
    exists (catchEvents err ++ finallyEvents E (addEvents (catchEvents err) stB)).
    split; [reflexivity|]. cbn [trace addEvents addEvent lastCount stB].
    repeat split.
    + now rewrite <- !app_assoc.
    + now rewrite forallb_app, catchEvents_notRconSend, finallyEvents_notRconSend.
    + intros resp' Hresp'. discriminate.
Qed.

End AfterPrologue.

(** C7. A cycle whose event query was answered by an empty or blank
    response returns normally, publishes nothing (there is no channel
    send among its events) and makes no cooldown pause. *)
Theorem pollOnce_quiet_cycle (E : env) (st st' : state) (c : completion unit)
    (evs : list event) (resp : str) :
  pollOnce E st = (c, st') ->
  trace st' = trace st ++ evs ->
  In (RconSend COMMAND (Fulfilled resp)) evs ->
  trim resp = [] ->
  c = Normal tt
  /\ (forall text r, ~ In (ChannelSend text r) evs)
  /\ (forall ms, ~ In (Sleep ms) evs).
Proof.
  intros Hrun Htrace Hin Hblank.
  assert (Hquiet : c = Normal tt /\ forallb isQuiet evs = true).
  { destruct (pollOnce_prologue E (entered st)) as [cP stP] eqn:HP.
    destruct (runs_pollOnce_prologue E isPreliminary
                ltac:(reflexivity) ltac:(reflexivity) ltac:(reflexivity)
                ltac:(reflexivity) ltac:(reflexivity) ltac:(reflexivity)
                _ _ _ HP)
      as (Hn & _ & _ & evsA & HtA & HpA).
    cbn [entered trace] in HtA.
    destruct cP as [[] | err |]; [| | congruence].
    - destruct (pollOnce_after_prologue E st stP HP)
        as (st1 & rest & Hrun1 & Ht1 & _ & Hrest & Hq).
      rewrite Hrun1 in Hrun. injection Hrun as <- <-.
      split; [reflexivity|].
      rewrite Ht1, HtA, <- app_assoc in Htrace.
      apply app_inv_head in Htrace. subst evs.
      apply in_app_or in Hin. destruct Hin as [Hin | [Hin | Hin]].
      + apply (proj1 (forallb_forall _ _) HpA) in Hin. discriminate.
      + injection Hin as Hr. rewrite <- HtA in Hr.
        rewrite forallb_app. cbn [forallb].
        rewrite (Hq resp Hr) by now rewrite Hblank.
        rewrite andb_true_r.
        apply forallb_forall. intros x Hx.
        apply (proj1 (forallb_forall _ _) HpA) in Hx.
        destruct x; try reflexivity; discriminate.
      + apply (proj1 (forallb_forall _ _) Hrest) in Hin. discriminate.
    - destruct (pollOnce_prologue_throws E st stP err HP) as [Hrun1 _].
      rewrite Hrun1 in Hrun. injection Hrun as <- <-.
      cbn [trace addEvents] in Htrace.
      rewrite HtA, <- !app_assoc in Htrace.
      apply app_inv_head in Htrace. subst evs.
      apply in_app_or in Hin. destruct Hin as [Hin | Hin].
      + apply (proj1 (forallb_forall _ _) HpA) in Hin. discriminate.
      + apply in_app_or in Hin. destruct Hin as [Hin | Hin].
        * apply (proj1 (forallb_forall _ _) (catchEvents_notRconSend err)) in Hin.
          discriminate.
        * apply (proj1 (forallb_forall _ _) (finallyEvents_notRconSend E _)) in Hin.
          discriminate. }
  destruct Hquiet as [Hc Hq]. split; [exact Hc|].
  split; intros; intros Hbad;
    apply (proj1 (forallb_forall _ _) Hq) in Hbad; discriminate.
Qed.

Lemma pollOnce_quiet_cycle_witness :
  let E := Scenario.calm (lit "") (lit "   " ++ LF :: lit "  ") in
  let st' := snd (pollOnce E Scenario.ready) in
  fst (pollOnce E Scenario.ready) = Normal tt
  /\ (forall text r, ~ In (ChannelSend text r) (trace st'))
  /\ (forall ms, ~ In (Sleep ms) (trace st')).
Proof.
  intros E st'.
  apply (pollOnce_quiet_cycle E Scenario.ready st'
           (fst (pollOnce E Scenario.ready)) (trace st')
           (lit "   " ++ LF :: lit "  ")).
  - reflexivity.
  - reflexivity.
  - vm_compute. do 5 right. left. reflexivity.
  - reflexivity.
Defined.

Section Faults.

Variable E : env.


Lemma pollOnce_prologue_connect_fault (st : state) (err : fault) :
  connectResult E (trace st ++ [ConsoleLog (pollingMessage E)]) = Rejected err ->
  pollOnce_prologue E (entered st) =
    (Throw err,
     addEvents [ConsoleLog (pollingMessage E); RconConnect (Rejected err)]
       (entered st)).
Proof.
  intros Hc. unfold pollOnce_prologue, bind, console_log, record, await.
  cbn. rewrite Hc. unfold addEvent, addEvents, entered. cbn.
  now rewrite <- app_assoc.
Qed.

Lemma pollOnce_prologue_connected (st : state) :
  connectResult E (trace st ++ [ConsoleLog (pollingMessage E)]) = Fulfilled tt ->
  pollOnce_prologue E (entered st) =
    playersQuery E
      (mkState (targetChannel st) (lastCount st) true
         (trace st ++ [ConsoleLog (pollingMessage E); RconConnect (Fulfilled tt)])).
Proof.
  intros Hc. unfold pollOnce_prologue, bind, console_log, record, await, set_rcon.
  cbn. rewrite Hc. unfold addEvent, addEvents, entered. cbn.
  now rewrite <- app_assoc.
Qed.

Lemma playersQuery_fault (st : state) (err : fault) :
  sendResult E (lit "players") (trace st) = Rejected err ->
  playersQuery E st =
    (if isConnectionClosed err
     then setPresence E 0 ;; updateChannelTopicIfChanged E 0
     else console_error (lit "RCON poll error:") err)
      (addEvent (RconSend (lit "players") (Rejected err)) st).
Proof.
  intros Hs. unfold playersQuery, try_catch. unfold bind at 1, await at 1.
  rewrite Hs. reflexivity.
Qed.

(** [updateChannelTopicIfChanged] never throws; with a resolved channel
    it leaves the count it was given in [lastCount]. *)
Lemma updateChannelTopicIfChanged_total (count : Z) (st : state) :
  exists st' evs,
    updateChannelTopicIfChanged E count st = (Normal tt, st')
    /\ trace st' = trace st ++ evs
    /\ (targetChannel st <> None -> lastCount st' = count).
Proof.
  destruct (targetChannel st) as [channel|] eqn:Hch.
  - destruct (Z.eq_dec count (lastCount st)) as [Heq | Hne].
    + exists st, []. rewrite app_nil_r.
      repeat split; auto using updateChannelTopicIfChanged_same.
    + rewrite (updateChannelTopicIfChanged_differs E count st channel Hch Hne).
      eexists. eexists. split; [reflexivity|]. split; reflexivity.
  - exists st, []. rewrite app_nil_r. repeat split; [|congruence].
    unfold updateChannelTopicIfChanged, bind, gets. now rewrite Hch.
Qed.

(** What follows the prologue, however it completed. *)
Lemma pollOnce_from_prologue (st stP : state) (cP : completion unit) :
  pollOnce_prologue E (entered st) = (cP, stP) ->
  cP <> Hang ->
  exists st' rest,
    pollOnce E st = (Normal tt, st')
    /\ trace st' = trace stP ++ rest
    /\ lastCount st' = lastCount stP
    /\ (cP = Normal tt ->
        exists r rest', rest = RconSend COMMAND r :: rest').
Proof.
  intros HP Hn. destruct cP as [[] | err |]; [| | congruence].
  - destruct (pollOnce_after_prologue E st stP HP)
      as (st' & rest & Hrun & Ht & Hl & _).
    exists st'. eexists. repeat split; eauto.
  - destruct (pollOnce_prologue_throws E st stP err HP) as [Hrun _].
    rewrite Hrun. eexists. eexists. split; [reflexivity|].
    cbn [trace addEvents lastCount]. rewrite <- app_assoc.
    repeat split. discriminate.
Qed.

End Faults.

Section FaultLast.

Variable E : env.










End FaultLast.




Section StatusFault.

Variable E : env.
Variable p : event -> bool.

Hypothesis p_log : forall m, p (ConsoleLog m) = true.
Hypothesis p_error : forall m e, p (ConsoleError m e) = true.
Hypothesis p_channel : forall t r, p (ChannelSend t r) = true.
Hypothesis p_sleep : forall ms, p (Sleep ms) = true.
Hypothesis p_end : forall r, p (RconEnd r) = true.

Lemma catchEvents_events (err : fault) : forallb p (catchEvents err) = true.
Proof.
  unfold catchEvents. destruct (isConnectionClosed err); cbn [forallb];
    now rewrite ?p_log, ?p_error, ?p_sleep.
Qed.

Lemma finallyEvents_events (st : state) : forallb p (finallyEvents E st) = true.
Proof.
  unfold finallyEvents. destruct (rcon st); cbn [forallb]; now rewrite ?p_end.
Qed.

(** After a completed prologue the event query is issued, and what
    follows it are log lines, channel sends, the cooldown and the
    release of the session. *)
Lemma pollOnce_after_prologue_events (st stP : state) :
  pollOnce_prologue E (entered st) = (Normal tt, stP) ->
  exists st' rest,
    pollOnce E st = (Normal tt, st')
    /\ trace st' =
         trace stP ++ RconSend COMMAND (sendResult E COMMAND (trace stP)) :: rest
    /\ lastCount st' = lastCount stP
    /\ forallb p rest = true.
Proof.
  intros HP. rewrite pollOnce_blocks, pollOnce_try_split.
  unfold bind at 1. rewrite HP. unfold bind at 1, await at 1.
  set (r := sendResult E COMMAND (trace stP)).
  set (stB := addEvent (RconSend COMMAND r) stP).
  destruct r as [resp | err] eqn:Hr.
  - destruct (pollOnce_publish E resp stB) as [c stD] eqn:HD.
    destruct (runs_pollOnce_publish E p resp p_log p_channel _ _ _ HD)
      as (Hn & _ & Hkeep & evsD & HtD & HpD).
    specialize (Hkeep eq_refl).
    destruct c as [[] | err |]; [| | congruence].
    + eexists. exists (evsD ++ finallyEvents E stD).
      split; [reflexivity|]. cbn [trace addEvents lastCount].
      repeat split.
      * rewrite HtD. cbn [trace addEvent stB]. now rewrite <- !app_assoc.
      * exact Hkeep.
      * now rewrite forallb_app, HpD, finallyEvents_events.
    + eexists.
      exists (evsD ++ catchEvents err
                ++ finallyEvents E (addEvents (catchEvents err) stD)).
      split; [reflexivity|]. cbn [trace addEvents lastCount].
      repeat split.
      * rewrite HtD. cbn [trace addEvent stB]. now rewrite <- !app_assoc.
      * exact Hkeep.
      * now rewrite !forallb_app, HpD, catchEvents_events, finallyEvents_events.
  - eexists.
    exists (catchEvents err ++ finallyEvents E (addEvents (catchEvents err) stB)).
    split; [reflexivity|]. cbn [trace addEvents addEvent lastCount stB].
    repeat split.
    + now rewrite <- !app_assoc.
    + now rewrite forallb_app, catchEvents_events, finallyEvents_events.
Qed.

End StatusFault.

Section TopicRun.

Variable E : env.

(** What a call of [updateChannelTopicIfChanged] does, in one equation
    per field. *)
Lemma updateChannelTopicIfChanged_run (count : Z) (st : state) :
  exists st',
    updateChannelTopicIfChanged E count st = (Normal tt, st')
    /\ trace st' = trace st ++ topicUpdateEvents E st count (trace st)
    /\ lastCount st' =
         match targetChannel st with
         | Some _ => count
         | None => lastCount st
         end
    /\ rcon st' = rcon st.
Proof.
  unfold topicUpdateEvents.
  destruct (targetChannel st) as [channel|] eqn:Hch.
  - destruct (Z.eq_dec count (lastCount st)) as [Heq | Hne].
    + exists st. rewrite (updateChannelTopicIfChanged_same E count st Heq).
      rewrite Heq at 1. rewrite Z.eqb_refl, app_nil_r. auto.
    + rewrite (updateChannelTopicIfChanged_differs E count st channel Hch Hne).
      apply Z.eqb_neq in Hne. rewrite Hne. eexists. repeat split.
  - exists st. rewrite app_nil_r. repeat split.
    unfold updateChannelTopicIfChanged, bind, gets. now rewrite Hch.
Qed.

End TopicRun.

(** C3, as the code has it. When the status query faults, the fault is
    handled inside the cycle.  A fault rendered as
    "error: connection closed" in any letter case is taken as count 0:
    the presence "0 survivors online" is set (when [client.user] is
    there) and, unless that presence update itself faults, the topic
    update runs with count 0 (the topic "Players online: 0" is written
    when the channel is resolved and [lastCount] is not 0, and 0 is
    stored in [lastCount]) and the event query is issued next.  A fault
    of that presence update goes to the handler of the cycle instead.
    Any other fault of the status query is only reported: the event
    query is issued next, no presence or topic update is made in the
    whole cycle, and [lastCount] stays. *)
Theorem pollOnce_status_query_fault (E : env) (st : state) (err : fault) :
  let h :=
    trace st ++ [ ConsoleLog (pollingMessage E);
                  RconConnect (Fulfilled tt);
                  RconSend (lit "players") (Rejected err) ] in
  let presence := SetPresence (lit "0 survivors online") in
  let stored :=
    match targetChannel st with
    | Some _ => 0%Z
    | None => lastCount st
    end in
  connectResult E (trace st ++ [ConsoleLog (pollingMessage E)]) = Fulfilled tt ->
  sendResult E (lit "players")
    (trace st ++ [ConsoleLog (pollingMessage E); RconConnect (Fulfilled tt)])
    = Rejected err ->
  exists st' evs,
    pollOnce E st = (Normal tt, st')
    /\ trace st' = h ++ evs
    /\ (isConnectionClosed err = false ->
        exists r rest,
          evs = ConsoleError (lit "RCON poll error:") err
                  :: RconSend COMMAND r :: rest
          /\ forallb afterQuery rest = true
          /\ lastCount st' = lastCount st)
    /\ (isConnectionClosed err = true -> clientUser E = true ->
        setPresenceResult E (lit "0 survivors online") h = Fulfilled tt ->
        exists r rest,
          evs = presence (Fulfilled tt)
                  :: topicUpdateEvents E st 0 (h ++ [presence (Fulfilled tt)])
                  ++ RconSend COMMAND r :: rest
          /\ forallb afterQuery rest = true
          /\ lastCount st' = stored)
    /\ (isConnectionClosed err = true -> clientUser E = false ->
        exists r rest,
          evs = topicUpdateEvents E st 0 h ++ RconSend COMMAND r :: rest
          /\ forallb afterQuery rest = true
          /\ lastCount st' = stored)
    /\ (isConnectionClosed err = true -> clientUser E = true ->
        forall err2,
          setPresenceResult E (lit "0 survivors online") h = Rejected err2 ->
          exists released,
            evs = presence (Rejected err2) :: catchEvents err2 ++ [RconEnd released]
            /\ lastCount st' = lastCount st).
Proof.
  intros h presence stored Hc Hs.
  pose proof (pollOnce_prologue_connected E st Hc) as HP.
  set (stC := mkState (targetChannel st) (lastCount st) true
                (trace st ++ [ConsoleLog (pollingMessage E);
                              RconConnect (Fulfilled tt)])) in HP.
  rewrite (playersQuery_fault E stC err Hs) in HP.
  set (stF := addEvent (RconSend (lit "players") (Rejected err)) stC) in HP.
  assert (HtF : trace stF = h).
  { unfold stF, stC, addEvent, h. cbn. now rewrite <- app_assoc. }
  assert (Hafter : forall stP,
             pollOnce_prologue E (entered st) = (Normal tt, stP) ->
             exists st' r rest,
               pollOnce E st = (Normal tt, st')
               /\ trace st' = trace stP ++ RconSend COMMAND r :: rest
               /\ lastCount st' = lastCount stP
               /\ forallb afterQuery rest = true).
  { intros stP HstP.
    destruct (pollOnce_after_prologue_events E afterQuery
                ltac:(reflexivity) ltac:(reflexivity) ltac:(reflexivity)
                ltac:(reflexivity) ltac:(reflexivity) st stP HstP)
      as (st' & rest & H1 & H2 & H3 & H4).
    exists st'. eexists. exists rest.
    split; [exact H1|]. split; [exact H2|]. split; [exact H3 | exact H4]. }
  destruct (isConnectionClosed err) eqn:Hclosed.
  - unfold bind at 1, setPresence in HP.
    change (presenceName 0) with (lit "0 survivors online") in HP.
    destruct (clientUser E) eqn:Huser.
    + unfold await in HP. rewrite HtF in HP.
      destruct (setPresenceResult E (lit "0 survivors online") h)
        as [[] | err2] eqn:Hpres.
      * set (stG := addEvent (SetPresence (lit "0 survivors online") (Fulfilled tt)) stF) in HP.
        destruct (updateChannelTopicIfChanged_run E 0 stG)
          as (stH & Hup & HtH & HlH & _).
        rewrite Hup in HP.
        destruct (Hafter stH HP) as (st' & r & rest & Hrun & Ht & Hl & Hrest).
        exists st',
          (presence (Fulfilled tt)
             :: topicUpdateEvents E st 0 (h ++ [presence (Fulfilled tt)])
             ++ RconSend COMMAND r :: rest).
        split; [exact Hrun|]. split; [|split; [|split; [|split]]];
          try discriminate.
        -- rewrite Ht, HtH. unfold stG, addEvent. cbn [trace]. rewrite HtF.
           change (topicUpdateEvents E _ 0 (h ++ [presence (Fulfilled tt)]))
             with (topicUpdateEvents E st 0 (h ++ [presence (Fulfilled tt)])).
           now rewrite <- !app_assoc.
        -- intros _ _ _. exists r, rest. repeat split; auto.
           rewrite Hl, HlH. reflexivity.
      * set (stG := addEvent (SetPresence (lit "0 survivors online") (Rejected err2)) stF) in HP.
        destruct (pollOnce_prologue_throws E st stG err2 HP) as [Hrun _].
        eexists. exists (presence (Rejected err2) :: catchEvents err2
                           ++ [RconEnd (endResult E (trace stG ++ catchEvents err2))]).
        split; [exact Hrun|]. split; [|split; [|split; [|split]]];
          try discriminate.
        -- cbv zeta. unfold finallyEvents. cbn [trace addEvents rcon].
           change (rcon stG) with true. cbv iota.
           unfold stG, addEvent. cbn [trace]. rewrite HtF.
           now rewrite <- !app_assoc.
        -- intros _ _ err3 Hbad. injection Hbad as <-.
           eexists. split; [reflexivity|]. reflexivity.
    + unfold ret in HP.
      destruct (updateChannelTopicIfChanged_run E 0 stF)
        as (stH & Hup & HtH & HlH & _).
      rewrite Hup in HP.
      destruct (Hafter stH HP) as (st' & r & rest & Hrun & Ht & Hl & Hrest).
      exists st', (topicUpdateEvents E st 0 h ++ RconSend COMMAND r :: rest).
      split; [exact Hrun|]. split; [|split; [|split; [|split]]];
        try discriminate.
      * rewrite Ht, HtH, HtF.
        change (topicUpdateEvents E stF 0 h) with (topicUpdateEvents E st 0 h).
        now rewrite <- !app_assoc.
      * intros _ _. exists r, rest. repeat split; auto.
        rewrite Hl, HlH. reflexivity.
  - unfold console_error, record in HP.
    destruct (Hafter _ HP) as (st' & r & rest & Hrun & Ht & Hl & Hrest).
    exists st',
      (ConsoleError (lit "RCON poll error:") err :: RconSend COMMAND r :: rest).
    split; [exact Hrun|]. split; [|split; [|split; [|split]]];
      try discriminate.
    + rewrite Ht. unfold addEvent. cbn [trace]. rewrite HtF.
      now rewrite <- !app_assoc.
    + intros _. exists r, rest. repeat split; auto.
Qed.

Lemma pollOnce_status_query_fault_witness :
  let E := Scenario.statusFails Scenario.closed (lit "") in
  let st := Scenario.ready in
  let err := Scenario.closed in
  let h :=
    trace st ++ [ ConsoleLog (pollingMessage E);
                  RconConnect (Fulfilled tt);
                  RconSend (lit "players") (Rejected err) ] in
  let presence := SetPresence (lit "0 survivors online") in
  let stored :=
    match targetChannel st with
    | Some _ => 0%Z
    | None => lastCount st
    end in
  exists st' evs,
    pollOnce E st = (Normal tt, st')
    /\ trace st' = h ++ evs
    /\ (isConnectionClosed err = false ->
        exists r rest,
          evs = ConsoleError (lit "RCON poll error:") err
                  :: RconSend COMMAND r :: rest
          /\ forallb afterQuery rest = true
          /\ lastCount st' = lastCount st)
    /\ (isConnectionClosed err = true -> clientUser E = true ->
        setPresenceResult E (lit "0 survivors online") h = Fulfilled tt ->
        exists r rest,
          evs = presence (Fulfilled tt)
                  :: topicUpdateEvents E st 0 (h ++ [presence (Fulfilled tt)])
                  ++ RconSend COMMAND r :: rest
          /\ forallb afterQuery rest = true
          /\ lastCount st' = stored)
    /\ (isConnectionClosed err = true -> clientUser E = false ->
        exists r rest,
          evs = topicUpdateEvents E st 0 h ++ RconSend COMMAND r :: rest
          /\ forallb afterQuery rest = true
          /\ lastCount st' = stored)
    /\ (isConnectionClosed err = true -> clientUser E = true ->
        forall err2,
          setPresenceResult E (lit "0 survivors online") h = Rejected err2 ->
          exists released,
            evs = presence (Rejected err2) :: catchEvents err2 ++ [RconEnd released]
            /\ lastCount st' = lastCount st).
Proof.
  intros E st err.
  apply (pollOnce_status_query_fault E st err).
  - reflexivity.
  - reflexivity.
Defined.

(** The claim C3 fails for a fault that is not "connection closed": the
    count is not taken as 0, and neither the presence nor the topic is
    updated in that cycle. *)
Lemma status_timeout_updates_nothing :
  exists st',
    pollOnce (Scenario.statusFails Scenario.timeout (lit "")) Scenario.ready
      = (Normal tt, st')
    /\ trace st' =
         [ ConsoleLog (lit "polling pz.example.org:27015");
           RconConnect (Fulfilled tt);
           RconSend (lit "players") (Rejected (lit "Error: Timeout"));
           ConsoleError (lit "RCON poll error:") (lit "Error: Timeout");
           RconSend COMMAND (Fulfilled (lit ""));
           ConsoleLog (lit "response empty");
           RconEnd (Fulfilled tt) ]
    /\ (forall name r, ~ In (SetPresence name r) (trace st'))
    /\ (forall topic r, ~ In (SetTopic topic r) (trace st'))
    /\ lastCount st' = (-1)%Z.
Proof.
  eexists. split; [reflexivity|]. split; [reflexivity|].
  split; [|split]; [intros name r | intros topic r | reflexivity];
    cbn [trace In];
    intros H; repeat (destruct H as [H | H]; [discriminate H|]); exact H.
Qed.

(** ** The scenarios of the specification, run *)

Section Scenarios.

Let players2 : str := lit "Players connected (2):" ++ LF :: lit "Alice" ++ LF :: lit "Bob".

(** A first cycle sets the presence and the topic and stores the count;
    a second cycle with the same answer sets the presence again and
    leaves the topic alone. *)
Example two_cycles_one_topic_write :
  let E := Scenario.calm players2 (lit "") in
  let st1 := snd (pollOnce E Scenario.ready) in
  let st2 := snd (pollOnce E st1) in
  trace st1 =
    [ ConsoleLog (lit "polling pz.example.org:27015");
      RconConnect (Fulfilled tt);
      RconSend (lit "players") (Fulfilled players2);
      SetPresence (lit "2 survivors online") (Fulfilled tt);
      SetTopic (lit "Players online: 2") (Fulfilled tt);
      RconSend COMMAND (Fulfilled (lit ""));
      ConsoleLog (lit "response empty");
      RconEnd (Fulfilled tt) ]
  /\ lastCount st1 = 2%Z
  /\ trace st2 =
       trace st1 ++
       [ ConsoleLog (lit "polling pz.example.org:27015");
         RconConnect (Fulfilled tt);
         RconSend (lit "players") (Fulfilled players2);
         SetPresence (lit "2 survivors online") (Fulfilled tt);
         RconSend COMMAND (Fulfilled (lit ""));
         ConsoleLog (lit "response empty");
         RconEnd (Fulfilled tt) ].
Proof. repeat split. Qed.

(** A response of 5000 characters is published as three messages of
    1900, 1900 and 1200 characters, in order. *)
Example long_response_three_messages :
  let E := Scenario.calm (lit "") (repeat "x"%char 5000) in
  let st1 := snd (pollOnce E Scenario.ready) in
  map (fun e => match e with ChannelSend text _ => len text | _ => 0%Z end)
      (filter isChannelSend (trace st1))
  = [1900; 1900; 1200]%Z.
Proof. vm_compute. reflexivity. Qed.

End Scenarios.

(** ** Further properties of [splitMessage] *)

Section SplitMessageEdges.

Lemma splitMessage_loop_nonempty (content : str) (maxLen : Z) :
  (0 < maxLen)%Z ->
  forall (fuel : nat) (start : Z) (chunks r : list str),
    (0 <= start)%Z ->
    Forall (fun c => c <> []) chunks ->
    splitMessage_loop fuel content maxLen start chunks = Some r ->
    Forall (fun c => c <> []) r.
Proof.
  intros HM. induction fuel as [|fuel IH]; intros start chunks r Hs Hacc;
    cbn [splitMessage_loop]; destruct (start <? len content)%Z eqn:Hlt;
    try discriminate; try (intros H; injection H as <-; exact Hacc).
  apply Z.ltb_lt in Hlt.
  set (end_ := Z.min (start + maxLen) (len content)).
  apply IH; [unfold end_; lia|].
  apply Forall_app. split; [exact Hacc|]. constructor; [|constructor].
  rewrite slice_inside by (unfold end_; lia).
  intros Hnil. apply (f_equal (@length ascii)) in Hnil.
  rewrite length_firstn, length_skipn in Hnil. cbn [length] in Hnil.
  unfold end_, len in *. lia.
Qed.

Lemma splitMessage_loop_spins (content : str) (maxLen : Z) :
  (maxLen <= 0)%Z ->
  forall (fuel : nat) (start : Z) (chunks : list str),
    (start < len content)%Z ->
    splitMessage_loop fuel content maxLen start chunks = None.
Proof.
  intros HM. induction fuel as [|fuel IH]; intros start chunks Hs;
    cbn [splitMessage_loop];
    replace (start <? len content)%Z with true by (symmetry; apply Z.ltb_lt; lia).
  - reflexivity.
  - apply IH. lia.
Qed.

End SplitMessageEdges.

(** X1. With a positive [maxLen], [splitMessage] never returns an empty
    chunk: no empty message results from the splitting. *)
Theorem splitMessage_no_empty_chunk (content : str) (maxLen : Z) (fuel : nat)
    (chunks : list str) :
  (0 < maxLen)%Z ->
  splitMessage fuel content maxLen = Some chunks ->
  Forall (fun c => c <> []) chunks.
Proof.
  intros HM H. unfold splitMessage in H.
  eapply splitMessage_loop_nonempty; [exact HM | | | exact H]; [lia | constructor].
Qed.

Lemma splitMessage_no_empty_chunk_witness :
  Forall (fun c : str => c <> []) [lit "abc"; lit "def"; lit "g"].
Proof.
  apply (splitMessage_no_empty_chunk (lit "abcdefg") 3 7).
  - reflexivity.
  - reflexivity.
Defined.

(** X2. A content no longer than a positive [maxLen] is not split: the
    result is the content itself as the only chunk, and no chunk at all
    for the empty content. *)
Theorem splitMessage_short (content : str) (maxLen : Z) (fuel : nat) :
  (0 < maxLen)%Z -> (len content <= maxLen)%Z -> 1 <= fuel ->
  splitMessage fuel content maxLen
  = Some (if isEmpty content then [] else [content]).
Proof.
  intros HM HL Hf. unfold splitMessage.
  destruct fuel as [|fuel]; [lia|].
  destruct content as [|c content].
  - reflexivity.
  - cbn [splitMessage_loop isEmpty].
    replace (0 <? len (c :: content))%Z with true
      by (symmetry; apply Z.ltb_lt; unfold len; cbn [length]; lia).
    replace (Z.min (0 + maxLen) (len (c :: content))) with (len (c :: content))
      by lia.
    assert (Hwhole : slice (c :: content) 0 (len (c :: content)) = c :: content).
    { rewrite slice_inside by (unfold len; lia).
      rewrite Z.sub_0_r. unfold len. rewrite Nat2Z.id.
      change (Z.to_nat 0) with 0. cbn [skipn]. apply firstn_all. }
    rewrite Hwhole.
    destruct fuel; cbn [splitMessage_loop]; rewrite Z.ltb_irrefl; reflexivity.
Qed.

Lemma splitMessage_short_witness :
  splitMessage 1 (lit "zombie horde") 1900 = Some [lit "zombie horde"].
Proof.
  apply (splitMessage_short (lit "zombie horde") 1900 1).
  - reflexivity.
  - vm_compute. discriminate.
  - lia.
Defined.

Section Spinning.

Variables (content : str) (maxLen : Z).

(** As long as the loop condition holds, [n] units of fuel are [n] runs
    of the body. *)
Lemma splitMessage_loop_iter (n fuel : nat) (s : Z * list str) :
  (forall k, k < n ->
     Loop.condition content (Nat.iter k (Loop.body content maxLen) s) = true) ->
  splitMessage_loop (n + fuel) content maxLen (fst s) (snd s) =
    splitMessage_loop fuel content maxLen
      (fst (Nat.iter n (Loop.body content maxLen) s))
      (snd (Nat.iter n (Loop.body content maxLen) s)).
Proof.
  revert s. induction n as [|n IH]; intros s Hc; [reflexivity|].
  pose proof (Hc 0 ltac:(lia)) as H0.
  change ((fst s <? len content)%Z = true) in H0.
  cbn [Nat.add splitMessage_loop]. rewrite H0. cbv zeta.
  rewrite Nat.iter_succ_r.
  apply (IH (Loop.body content maxLen s)).
  intros k Hk. rewrite <- Nat.iter_succ_r. apply Hc. lia.
Qed.

Lemma after_nonpositive (n : nat) :
  (maxLen <= 0)%Z ->
  (fst (Loop.after content maxLen n) <= 0)%Z
  /\ length (snd (Loop.after content maxLen n)) = n.
Proof.
  intros HM. unfold Loop.after.
  induction n as [|n [IH1 IH2]]; [cbn; split; [lia | reflexivity]|].
  rewrite Nat.iter_succ.
  destruct (Nat.iter n (Loop.body content maxLen) (0%Z, [])) as [start chunks].
  unfold Loop.body. cbv zeta. cbn [fst snd] in *.
  split; [lia|]. rewrite length_app, IH2. cbn [length]. lia.
Qed.

End Spinning.

(** X3. With a [maxLen] of zero or less and a non-empty content the
    loop of [splitMessage] is never left through its condition: after
    every number [n] of runs of the body, [start] is still below the
    length of the content and [chunks] holds [n] strings.  So the call
    returns no list of chunks; it can only end abnormally, when the
    array of chunks cannot grow any more. *)
Theorem splitMessage_nonpositive_spins (content : str) (maxLen : Z) (n : nat) :
  (maxLen <= 0)%Z -> content <> [] ->
  Loop.condition content (Loop.after content maxLen n) = true
  /\ length (snd (Loop.after content maxLen n)) = n
  /\ splitMessage n content maxLen = None.
Proof.
  intros HM Hne.
  assert (Hlen : (0 < len content)%Z).
  { destruct content; [congruence|]. unfold len. cbn [length]. lia. }
  assert (Hcond : forall k,
             Loop.condition content (Loop.after content maxLen k) = true).
  { intros k. destruct (after_nonpositive content maxLen k HM) as [Hs _].
    unfold Loop.condition. apply Z.ltb_lt. lia. }
  split; [apply Hcond|].
  split; [apply (after_nonpositive content maxLen n HM)|].
  unfold splitMessage.
  pose proof (splitMessage_loop_iter content maxLen n 0 (0%Z, [])
                (fun k _ => Hcond k)) as Hiter.
  rewrite Nat.add_0_r in Hiter. cbn [fst snd] in Hiter. rewrite Hiter.
  fold (Loop.after content maxLen n).
  specialize (Hcond n). unfold Loop.condition in Hcond.
  destruct n; cbn [splitMessage_loop]; now rewrite Hcond.
Qed.

Lemma splitMessage_nonpositive_spins_witness :
  Loop.condition (lit "abc") (Loop.after (lit "abc") (-2) 1000) = true
  /\ length (snd (Loop.after (lit "abc") (-2) 1000)) = 1000
  /\ splitMessage 1000 (lit "abc") (-2) = None.
Proof.
  apply (splitMessage_nonpositive_spins (lit "abc") (-2) 1000).
  - vm_compute. discriminate.
  - discriminate.
Defined.

(** ** Further properties of [parsePlayerCount] *)

Section ParserEdges.

Lemma whitespace_not_p (c : ascii) :
  isWhiteSpace c = true ->
  Ascii.eqb (canonicalize c) (canonicalize "p") = false.
Proof.
  destruct c as [[] [] [] [] [] [] [] []]; vm_compute; congruence.
Qed.

Lemma digit_code (c : ascii) : isDigit c = true -> 48 <= code c.
Proof.
  unfold isDigit. intros H. apply andb_prop in H. destruct H as [H _].
  now apply Nat.leb_le in H.
Qed.

Lemma digits_fold_nonneg (ds : str) :
  forallb isDigit ds = true ->
  forall acc : Z, (0 <= acc)%Z ->
    (0 <= fold_left (fun a c => 10 * a + (Z.of_nat (code c) - 48)) ds acc)%Z.
Proof.
  induction ds as [|d ds IH]; intros Hd acc Hacc; cbn [fold_left]; [exact Hacc|].
  cbn [forallb] in Hd. apply andb_prop in Hd. destruct Hd as [Hd Hds].
  apply IH; [exact Hds|]. apply digit_code in Hd. lia.
Qed.

Lemma matchHeader_digits (s ds : str) :
  matchHeader s = Some ds -> forallb isDigit ds = true.
Proof.
  induction s as [|c s IH]; cbn [matchHeader].
  - destruct (headerAt []) eqn:E; [|discriminate].
    intros H. injection H as <-.
    destruct (headerAt_sound _ _ E) as (m & rest & _ & HM).
    destruct HM as (? & ? & ? & ? & ? & _ & _ & _ & _ & _ & _ & _ & _ & Hd).
    exact Hd.
  - destruct (headerAt (c :: s)) eqn:E; [|exact IH].
    intros H. injection H as <-.
    destruct (headerAt_sound _ _ E) as (m & rest & _ & HM).
    destruct HM as (? & ? & ? & ? & ? & _ & _ & _ & _ & _ & _ & _ & _ & Hd).
    exact Hd.
Qed.

Lemma headerAt_whitespace (s : str) :
  forallb isWhiteSpace s = true -> headerAt s = None.
Proof.
  destruct s as [|c s]; [reflexivity|].
  cbn [forallb]. intros H. apply andb_prop in H. destruct H as [Hc _].
  unfold headerAt. change (lit "player") with ("p"%char :: lit "layer").
  cbn [matchLit]. now rewrite (whitespace_not_p c Hc).
Qed.

Lemma matchHeader_whitespace (s : str) :
  forallb isWhiteSpace s = true -> matchHeader s = None.
Proof.
  induction s as [|c s IH]; intros H; cbn [matchHeader];
    rewrite (headerAt_whitespace _ H); [reflexivity|].
  cbn [forallb] in H. apply andb_prop in H. now apply IH.
Qed.

Lemma splitLines_whitespace (s : str) :
  forallb isWhiteSpace s = true ->
  Forall (fun l => forallb isWhiteSpace l = true) (splitLines s).
Proof.
  induction s as [|c s IH]; intros H; cbn [splitLines].
  - repeat constructor.
  - cbn [forallb] in H. apply andb_prop in H. destruct H as [Hc Hs].
    specialize (IH Hs).
    destruct (Ascii.eqb c LF); [constructor; [reflexivity | exact IH]|].
    destruct (Ascii.eqb c CR && _); [exact IH|].
    destruct (splitLines s) as [|l ls].
    + repeat constructor. cbn [forallb]. now rewrite Hc.
    + inversion IH as [|? ? Hl Hls]; subst.
      constructor; [|exact Hls]. cbn [forallb]. now rewrite Hc, Hl.
Qed.

Lemma trim_whitespace (l : str) : forallb isWhiteSpace l = true -> trim l = [].
Proof.
  intros H. unfold trim, trimStart, trimEnd.
  now rewrite (dropWhile_all _ l H).
Qed.

End ParserEdges.

(** X4. [parsePlayerCount] never returns a negative count, whatever the
    text. *)
Theorem parsePlayerCount_nonneg (resp : str) : (0 <= parsePlayerCount resp)%Z.
Proof.
  unfold parsePlayerCount.
  destruct (matchHeader resp) as [ds|] eqn:E.
  - apply roundToDouble_nonneg.
    apply digits_fold_nonneg; [|lia]. exact (matchHeader_digits _ _ E).
  - destruct (filter _ _) as [|first rest]; [lia|].
    destruct (includes _ _); lia.
Qed.

(** X5. For an empty text and for a text of white space only (blank
    lines included) [parsePlayerCount] returns 0. *)
Theorem parsePlayerCount_blank (resp : str) :
  forallb isWhiteSpace resp = true -> parsePlayerCount resp = 0%Z.
Proof.
  intros H. unfold parsePlayerCount.
  rewrite (matchHeader_whitespace _ H).
  replace (filter (fun l => negb (isEmpty l)) (map trim (splitLines resp)))
    with (@nil str); [reflexivity|].
  pose proof (splitLines_whitespace _ H) as Hl.
  induction Hl as [|l ls Hw _ IH]; [reflexivity|].
  cbn [map filter]. now rewrite (trim_whitespace _ Hw).
Qed.

Lemma parsePlayerCount_blank_witness :
  parsePlayerCount (lit "  " ++ CR :: LF :: lit " " ++ LF :: lit "   ") = 0%Z.
Proof.
  apply (parsePlayerCount_blank (lit "  " ++ CR :: LF :: lit " " ++ LF :: lit "   ")).
  reflexivity.
Defined.

(** X6. The header is recognised in every spelling of the pattern
    [Players?\s+connected\s*\((\d+)\)] under the [i] flag (singular or
    plural, any run of white space, any letter case): when the first
    match of the text is [m], with the digits of N after any zeros, the
    count is [Number(N)] whatever follows: exactly N up to 2^53, and in
    general the double nearest to N. *)
Theorem parsePlayerCount_pattern (pre m rest : str) (zeros : nat) (N : Z) :
  (0 <= N)%Z ->
  HeaderMatch m (repeat "0"%char zeros ++ decimal N) ->
  (forall i, i < length pre -> headerAt (skipn i (pre ++ m ++ rest)) = None) ->
  parsePlayerCount (pre ++ m ++ rest) = roundToDouble N
  /\ ((N <= 9007199254740992)%Z -> parsePlayerCount (pre ++ m ++ rest) = N).
Proof.
  intros HN HM Hfirst.
  assert (H : parsePlayerCount (pre ++ m ++ rest) = roundToDouble N).
  { unfold parsePlayerCount.
    rewrite (matchHeader_first pre (m ++ rest) _ Hfirst (headerAt_complete _ _ _ HM)).
    unfold toNumber. now rewrite digitsToZ_decimal. }
  split; [exact H|]. intros Hsafe. rewrite H. now apply roundToDouble_safe.
Qed.

Lemma parsePlayerCount_pattern_witness :
  parsePlayerCount
    (lit "> " ++ lit "player  CONNECTED(07)" ++ lit " are online")
  = roundToDouble 7
  /\ ((7 <= 9007199254740992)%Z ->
      parsePlayerCount
        (lit "> " ++ lit "player  CONNECTED(07)" ++ lit " are online")
      = 7%Z).
Proof.
  apply (parsePlayerCount_pattern (lit "> ") (lit "player  CONNECTED(07)")
           (lit " are online") 1 7).
  - lia.
  - exists (lit "player"), (lit ""), (lit "  "), (lit "CONNECTED"), (lit "").
    repeat split; try reflexivity; try discriminate.
    left. reflexivity.
  - intros i Hi. do 2 (destruct i as [|i]; [reflexivity|]).
    simpl in Hi. lia.
Defined.

(** ** Further properties of the topic update *)

Import Topics Frames.

Section TopicSequence.

Variable E : env.

Lemma last_cons (l : list Z) (a d : Z) : last (a :: l) d = last l a.
Proof.
  revert a d. induction l as [|b l IH]; intros a d; [reflexivity|].
  change (last (a :: b :: l) d) with (last (b :: l) d).
  now rewrite !IH.
Qed.

Lemma topicsWritten_app (a b : list event) :
  topicsWritten (a ++ b) = topicsWritten a ++ topicsWritten b.
Proof.
  induction a as [|e a IH]; [reflexivity|].
  destruct e; cbn [app topicsWritten]; now rewrite IH.
Qed.

Lemma topicEvents_written (channel : TextChannel) (count : Z) (h : list event) :
  hasSetTopic channel = true ->
  topicsWritten (topicEvents E channel count h) = [topicText count].
Proof.
  intros Hs. unfold topicEvents. rewrite Hs.
  now destruct (setTopicResult E (topicText count) h).
Qed.

End TopicSequence.

(** X7. Invoked with one count after the other on a resolved channel
    that has topics, [updateChannelTopicIfChanged] writes the topic
    exactly for the counts that differ from the count before them
    (the first one from [lastCount]), in order and whether the writes
    succeed or not, and leaves the last count in [lastCount]. *)
Theorem updateAll_writes_changes (E : env) (channel : TextChannel)
    (counts : list Z) (st : state) :
  targetChannel st = Some channel ->
  hasSetTopic channel = true ->
  exists st' evs,
    updateAll E counts st = (Normal tt, st')
    /\ trace st' = trace st ++ evs
    /\ topicsWritten evs = map topicText (changes (lastCount st) counts)
    /\ lastCount st' = last counts (lastCount st)
    /\ targetChannel st' = Some channel.
Proof.
  intros Hch Htopics. revert st Hch.
  induction counts as [|count rest IH]; intros st Hch.
  - exists st, []. rewrite app_nil_r. repeat split; auto.
  - cbn [updateAll changes]. unfold bind at 1. rewrite last_cons.
    destruct (Z.eq_dec count (lastCount st)) as [Heq | Hne].
    + rewrite (updateChannelTopicIfChanged_same E count st Heq).
      rewrite Heq, Z.eqb_refl. apply IH. exact Hch.
    + rewrite (updateChannelTopicIfChanged_differs E count st channel Hch Hne).
      apply Z.eqb_neq in Hne. rewrite Hne.
      destruct (IH (addEvents (topicEvents E channel count (trace st))
                      (mkState (Some channel) count (rcon st) (trace st)))
                  eq_refl)
        as (st' & evs & Hrun & Ht & Hw & Hl & Hc).
      exists st', (topicEvents E channel count (trace st) ++ evs).
      cbn [trace lastCount addEvents] in Ht, Hw, Hl.
      repeat split; auto.
      * now rewrite Ht, app_assoc.
      * rewrite topicsWritten_app, topicEvents_written by exact Htopics.
        now rewrite Hw.
Qed.

Lemma updateAll_writes_changes_witness :
  exists st' evs,
    updateAll Scenario.topicRefused [0; 0; 2; 2; 0]%Z Scenario.ready
      = (Normal tt, st')
    /\ trace st' = trace Scenario.ready ++ evs
    /\ topicsWritten evs
       = map topicText (changes (lastCount Scenario.ready) [0; 0; 2; 2; 0]%Z)
    /\ lastCount st' = last [0; 0; 2; 2; 0]%Z (lastCount Scenario.ready)
    /\ targetChannel st' = Some (mkChannel true).
Proof.
  apply (updateAll_writes_changes Scenario.topicRefused (mkChannel true)
           [0; 0; 2; 2; 0]%Z Scenario.ready).
  - reflexivity.
  - reflexivity.
Defined.

(** ** Frames of the cycle *)

Section Steps.

Variable R : state -> state -> Prop.
Hypothesis R_refl : forall st, R st st.
Hypothesis R_trans : forall a b c, R a b -> R b c -> R a c.

Lemma steps_ret {A : Type} (a : A) : steps R (ret a).
Proof. intros st c st' H. injection H as _ <-. apply R_refl. Qed.

Lemma steps_gets {A : Type} (f : state -> A) : steps R (gets f).
Proof. intros st c st' H. injection H as _ <-. apply R_refl. Qed.

Lemma steps_bind {A B : Type} (m : M A) (k : A -> M B) :
  steps R m -> (forall a, steps R (k a)) -> steps R (bind m k).
Proof.
  intros Hm Hk st c st' H. unfold bind in H.
  destruct (m st) as [cm stm] eqn:Em. pose proof (Hm _ _ _ Em) as H1.
  destruct cm as [a | e |].
  - eapply R_trans; [exact H1 | exact (Hk a _ _ _ H)].
  - injection H as _ <-. exact H1.
  - injection H as _ <-. exact H1.
Qed.

Lemma steps_try_catch {A : Type} (body : M A) (handler : fault -> M A) :
  steps R body -> (forall e, steps R (handler e)) ->
  steps R (try_catch body handler).
Proof.
  intros Hb Hh st c st' H. unfold try_catch in H.
  destruct (body st) as [cb stb] eqn:Eb. pose proof (Hb _ _ _ Eb) as H1.
  destruct cb as [a | e |].
  - injection H as _ <-. exact H1.
  - eapply R_trans; [exact H1 | exact (Hh e _ _ _ H)].
  - injection H as _ <-. exact H1.
Qed.

Lemma steps_try_finally {A : Type} (body : M A) (fin : M unit) :
  steps R body -> steps R fin -> steps R (try_finally body fin).
Proof.
  intros Hb Hf st c st' H. unfold try_finally in H.
  destruct (body st) as [cb stb] eqn:Eb. pose proof (Hb _ _ _ Eb) as H1.
  destruct cb as [a | e |];
    try (destruct (fin stb) as [cf stf] eqn:Ef; pose proof (Hf _ _ _ Ef) as H2;
         destruct cf as [[] | e' |]; injection H as _ <-;
         eapply R_trans; eassumption).
  injection H as _ <-. exact H1.
Qed.

Lemma steps_record (e : event) :
  (forall st, R st (addEvent e st)) -> steps R (record e).
Proof. intros He st c st' H. injection H as _ <-. apply He. Qed.

Lemma steps_await {A : Type} (ev : settled A -> event)
    (result : list event -> settled A) :
  (forall r st, R st (addEvent (ev r) st)) -> steps R (await ev result).
Proof. intros He st c st' H. unfold await in H. injection H as _ <-. apply He. Qed.

Lemma steps_callSplitMessage (content : str) : steps R (callSplitMessage content).
Proof.
  intros st c st' H. unfold callSplitMessage in H.
  destruct (splitMessage _ _ _); injection H as _ <-; apply R_refl.
Qed.

Lemma steps_sendParts (E : env) (parts : list str) :
  (forall t r st, R st (addEvent (ChannelSend t r) st)) ->
  steps R (sendParts E parts).
Proof.
  intros He. induction parts as [|part rest IH]; cbn [sendParts].
  - apply steps_ret.
  - apply steps_bind; [apply steps_await; intros; apply He | intros _; exact IH].
Qed.

End Steps.

Ltac steps_step :=
  match goal with
  | |- steps _ (ret _) => apply steps_ret; solve [eauto]
  | |- steps _ (gets _) => apply steps_gets; solve [eauto]
  | |- steps _ (record _) => apply steps_record; solve [eauto]
  | |- steps _ (await _ _) => apply steps_await; solve [eauto]
  | |- steps _ (callSplitMessage _) => apply steps_callSplitMessage; solve [eauto]
  | |- steps _ (sendParts _ _) => apply steps_sendParts; solve [eauto]
  | |- steps _ (bind _ _) => apply steps_bind; [solve [eauto] | | intros ?]
  | |- steps _ (try_catch _ _) => apply steps_try_catch; [solve [eauto] | | intros ?]
  | |- steps _ (try_finally _ _) => apply steps_try_finally; [solve [eauto] | |]
  | |- steps _ (if ?b then _ else _) => destruct b
  | |- steps _ (match ?x with _ => _ end) => destruct x
  end.

Ltac steps_auto := repeat steps_step.

Section SessionVariable.

Variable E : env.

Lemma sameRcon_refl (st : state) : sameRcon st st.
Proof. reflexivity. Qed.

Lemma sameRcon_trans (a b c : state) : sameRcon a b -> sameRcon b c -> sameRcon a c.
Proof. unfold sameRcon. congruence. Qed.

Lemma sameRcon_addEvent (e : event) (st : state) : sameRcon st (addEvent e st).
Proof. reflexivity. Qed.

Lemma sameRcon_set_lastCount (n : Z) : steps sameRcon (set_lastCount n).
Proof. intros st c st' H. injection H as _ <-. reflexivity. Qed.

#[local] Hint Resolve sameRcon_refl sameRcon_trans sameRcon_addEvent
  sameRcon_set_lastCount : core.

(** After the assignment of [rcon], nothing in the [try] block assigns
    it again. *)
Lemma sameRcon_after_connect :
  steps sameRcon
    (playersQuery E ;;
     response <- await (RconSend COMMAND) (sendResult E COMMAND) ;;
     pollOnce_publish E response).
Proof.
  unfold playersQuery, setPresence, updateChannelTopicIfChanged, pollOnce_publish,
    console_log, console_error.
  cbv zeta. steps_auto; auto.
Qed.

(** [rcon] holds a session at the end of the [try] block exactly when
    the connect attempt succeeded. *)
Lemma pollOnce_try_session (st st1 : state) (c : completion unit) :
  pollOnce_try E (entered st) = (c, st1) ->
  rcon st1 =
    match connectResult E (trace st ++ [ConsoleLog (pollingMessage E)]) with
    | Fulfilled _ => true
    | Rejected _ => false
    end.
Proof.
  intros H. unfold pollOnce_try in H.
  unfold bind at 1, console_log at 1, record at 1 in H.
  unfold bind at 1, await at 1 in H.
  cbn [trace addEvent entered] in H.
  destruct (connectResult E (trace st ++ [ConsoleLog (pollingMessage E)])).
  - unfold bind at 1, set_rcon at 1 in H.
    apply sameRcon_after_connect in H. exact H.
  - injection H as _ <-. reflexivity.
Qed.

End SessionVariable.

Section TryEvents.

Variable E : env.
Variable p : event -> bool.

Hypothesis p_log : forall m, p (ConsoleLog m) = true.
Hypothesis p_error : forall m e, p (ConsoleError m e) = true.
Hypothesis p_connect : forall r, p (RconConnect r) = true.
Hypothesis p_send : forall cmd r, p (RconSend cmd r) = true.
Hypothesis p_topic : forall t r, p (SetTopic t r) = true.
Hypothesis p_presence : forall n r, p (SetPresence n r) = true.
Hypothesis p_channel : forall t r, p (ChannelSend t r) = true.

(** The [try] block makes every kind of event but a sleep and a release
    of the session. *)
Lemma runs_pollOnce_try_events : runs p false (pollOnce_try E).
Proof.
  intros st c st' H. rewrite pollOnce_try_split in H. revert st c st' H.
  change (runs p false
            (pollOnce_prologue E ;;
             response <- await (RconSend COMMAND) (sendResult E COMMAND) ;;
             pollOnce_publish E response)).
  runs_auto; auto using runs_pollOnce_prologue.
  apply runs_forget. now apply runs_pollOnce_publish.
Qed.

End TryEvents.

Section CycleFacts.

Variable E : env.

Lemma filter_none (p : event -> bool) (l : list event) :
  forallb (fun e => negb (p e)) l = true -> filter p l = [].
Proof.
  induction l as [|e l IH]; [reflexivity|].
  cbn [forallb filter]. intros H. apply andb_prop in H. destruct H as [He Hl].
  apply negb_true_iff in He. rewrite He. now apply IH.
Qed.

Lemma catchEvents_sleep (err : fault) :
  filter isSleep (catchEvents err) = [Sleep 60000].
Proof. unfold catchEvents. now destruct (isConnectionClosed err). Qed.

Lemma finallyEvents_no_sleep (st : state) :
  filter isSleep (finallyEvents E st) = [].
Proof. unfold finallyEvents. now destruct (rcon st). Qed.

Lemma catchEvents_notRconEnd (err : fault) :
  forallb notRconEnd (catchEvents err) = true.
Proof. unfold catchEvents. now destruct (isConnectionClosed err). Qed.

End CycleFacts.

(** X8. A refused connect costs one cooldown and nothing else: the
    fault is reported (quietly when it is "connection closed"), the
    cycle sleeps 60000 ms and returns normally; no command is sent, no
    session is released, and the channel and [lastCount] are as before. *)
Theorem pollOnce_connect_fault (E : env) (st : state) (err : fault) :
  connectResult E (trace st ++ [ConsoleLog (pollingMessage E)]) = Rejected err ->
  pollOnce E st =
    (Normal tt,
     addEvents
       ([ConsoleLog (pollingMessage E); RconConnect (Rejected err)]
          ++ catchEvents err)
       (entered st)).
Proof.
  intros Hc.
  pose proof (pollOnce_prologue_connect_fault E st err Hc) as HP.
  destruct (pollOnce_prologue_throws E st _ err HP) as [Hrun _].
  rewrite Hrun. cbv zeta. unfold finallyEvents, addEvents, entered.
  cbn [rcon trace targetChannel lastCount].
  now rewrite app_nil_r, <- app_assoc.
Qed.

Lemma pollOnce_connect_fault_witness :
  pollOnce (Scenario.unreachable Scenario.timeout) Scenario.ready =
    (Normal tt,
     addEvents
       ([ConsoleLog (pollingMessage (Scenario.unreachable Scenario.timeout));
         RconConnect (Rejected Scenario.timeout)]
          ++ catchEvents Scenario.timeout)
       (entered Scenario.ready)).
Proof.
  apply (pollOnce_connect_fault (Scenario.unreachable Scenario.timeout)
           Scenario.ready Scenario.timeout).
  reflexivity.
Defined.

(** X9. A cycle sleeps exactly when a fault left its [try] block, and
    then once, for 60000 ms; a fault that is not "connection closed" is
    reported with [console.error]. *)
Theorem pollOnce_cooldown_iff_fault (E : env) (st st1 : state)
    (c : completion unit) :
  pollOnce_try E (entered st) = (c, st1) ->
  exists st' evs,
    pollOnce E st = (Normal tt, st')
    /\ trace st' = trace st ++ evs
    /\ filter isSleep evs
       = match c with Throw _ => [Sleep 60000] | _ => [] end
    /\ (forall err, c = Throw err -> isConnectionClosed err = false ->
        In (ConsoleError (lit "RCON poll error:") err) evs).
Proof.
  intros Htry.
  destruct (runs_pollOnce_try_events E notSleep
              ltac:(reflexivity) ltac:(reflexivity) ltac:(reflexivity)
              ltac:(reflexivity) ltac:(reflexivity) ltac:(reflexivity)
              ltac:(reflexivity) _ _ _ Htry)
    as (Hn & _ & _ & evs1 & Ht1 & Hp1).
  cbn [entered trace] in Ht1.
  apply (filter_none isSleep) in Hp1.
  rewrite pollOnce_blocks, Htry.
  destruct c as [[] | err |]; [| | congruence].
  - eexists. exists (evs1 ++ finallyEvents E st1).
    split; [reflexivity|]. cbn [trace addEvents]. repeat split.
    + now rewrite Ht1, app_assoc.
    + now rewrite filter_app, Hp1, finallyEvents_no_sleep.
    + discriminate.
  - cbv zeta. eexists.
    exists (evs1 ++ catchEvents err
              ++ finallyEvents E (addEvents (catchEvents err) st1)).
    split; [reflexivity|]. cbn [trace addEvents]. repeat split.
    + now rewrite Ht1, <- !app_assoc.
    + now rewrite !filter_app, Hp1, catchEvents_sleep, finallyEvents_no_sleep.
    + intros err' Herr Hclosed. injection Herr as <-.
      apply in_or_app. right. apply in_or_app. left.
      unfold catchEvents. rewrite Hclosed. left. reflexivity.
Qed.

Lemma pollOnce_cooldown_iff_fault_witness :
  let E := Scenario.unreachable Scenario.timeout in
  exists st' evs,
    pollOnce E Scenario.ready = (Normal tt, st')
    /\ trace st' = trace Scenario.ready ++ evs
    /\ filter isSleep evs = [Sleep 60000]
    /\ (forall err, Throw (A := unit) Scenario.timeout = Throw err ->
        isConnectionClosed err = false ->
        In (ConsoleError (lit "RCON poll error:") err) evs).
Proof.
  intros E.
  apply (pollOnce_cooldown_iff_fault E Scenario.ready
           (addEvents [ConsoleLog (pollingMessage E);
                       RconConnect (Rejected Scenario.timeout)]
              (entered Scenario.ready))
           (Throw Scenario.timeout)).
  reflexivity.
Defined.

(** X10. The session is released exactly when one was opened: in a
    cycle whose connect attempt succeeded [rcon.end] is called once, as
    the last action of the cycle, however the cycle went; in a cycle
    whose connect attempt failed it is not called. *)
Theorem pollOnce_releases_session (E : env) (st : state) :
  exists st' evs,
    pollOnce E st = (Normal tt, st')
    /\ trace st' = trace st ++ evs
    /\ match connectResult E (trace st ++ [ConsoleLog (pollingMessage E)]) with
       | Fulfilled _ =>
           exists before r,
             evs = before ++ [RconEnd r] /\ forallb notRconEnd before = true
       | Rejected _ => forallb notRconEnd evs = true
       end.
Proof.
  destruct (pollOnce_try E (entered st)) as [c st1] eqn:Htry.
  destruct (runs_pollOnce_try_events E notRconEnd
              ltac:(reflexivity) ltac:(reflexivity) ltac:(reflexivity)
              ltac:(reflexivity) ltac:(reflexivity) ltac:(reflexivity)
              ltac:(reflexivity) _ _ _ Htry)
    as (Hn & _ & _ & evs1 & Ht1 & Hp1).
  cbn [entered trace] in Ht1.
  pose proof (pollOnce_try_session E st st1 c Htry) as Hsession.
  rewrite pollOnce_blocks, Htry.
  destruct c as [[] | err |]; [| | congruence].
  - eexists. exists (evs1 ++ finallyEvents E st1).
    split; [reflexivity|]. cbn [trace addEvents].
    split; [now rewrite Ht1, app_assoc|].
    unfold finallyEvents. rewrite Hsession.
    destruct (connectResult E _).
    + exists evs1. eexists. split; [reflexivity | exact Hp1].
    + now rewrite app_nil_r.
  - cbv zeta. eexists.
    exists (evs1 ++ catchEvents err
              ++ finallyEvents E (addEvents (catchEvents err) st1)).
    split; [reflexivity|]. cbn [trace addEvents].
    split; [now rewrite Ht1, <- !app_assoc|].
    unfold finallyEvents. cbn [rcon addEvents]. rewrite Hsession.
    destruct (connectResult E _).
    + exists (evs1 ++ catchEvents err). eexists.
      split; [now rewrite <- app_assoc|].
      now rewrite forallb_app, Hp1, catchEvents_notRconEnd.
    + now rewrite app_nil_r, forallb_app, Hp1, catchEvents_notRconEnd.
Qed.

(** ** The cycle without a channel *)

Section Unresolved.

Variable E : env.

Lemma unresolved_refl (st : state) : unresolved st st.
Proof.
  intros Hnone. repeat split; auto. exists []. now rewrite app_nil_r.
Qed.

Lemma unresolved_trans (a b c : state) :
  unresolved a b -> unresolved b c -> unresolved a c.
Proof.
  intros Hab Hbc Hnone.
  destruct (Hab Hnone) as (Hb & Hl1 & evs1 & Ht1 & Hp1).
  destruct (Hbc Hb) as (Hc & Hl2 & evs2 & Ht2 & Hp2).
  repeat split; [exact Hc | congruence |].
  exists (evs1 ++ evs2). rewrite Ht2, Ht1, app_assoc. split; [reflexivity|].
  now rewrite forallb_app, Hp1, Hp2.
Qed.

Lemma unresolved_addEvent (e : event) :
  offChannel e = true -> forall st, unresolved st (addEvent e st).
Proof.
  intros He st Hnone. repeat split; auto. exists [e]. cbn. now rewrite He.
Qed.

Lemma unresolved_set_rcon (b : bool) : steps unresolved (set_rcon b).
Proof.
  intros st c st' H. injection H as _ <-. intros Hnone.
  repeat split; auto. exists []. cbn. now rewrite app_nil_r.
Qed.

Lemma unresolved_updateChannelTopicIfChanged (count : Z) :
  steps unresolved (updateChannelTopicIfChanged E count).
Proof.
  intros st c st' H Hnone. unfold updateChannelTopicIfChanged, bind, gets in H.
  rewrite Hnone in H. injection H as _ <-. now apply unresolved_refl.
Qed.

Lemma unresolved_pollOnce_publish (response : str) :
  steps unresolved (pollOnce_publish E response).
Proof.
  intros st c st' H Hnone. unfold pollOnce_publish in H. cbv zeta in H.
  destruct (isEmpty (trim response)).
  - injection H as _ <-. now apply unresolved_addEvent.
  - unfold bind, gets in H. rewrite Hnone in H. injection H as _ <-.
    now apply unresolved_addEvent.
Qed.

Lemma unresolved_pollOnce : steps unresolved (pollOnce E).
Proof.
  pose proof unresolved_refl. pose proof unresolved_trans.
  pose proof unresolved_set_rcon. pose proof unresolved_updateChannelTopicIfChanged.
  pose proof unresolved_pollOnce_publish.
  assert (Hev : forall e, offChannel e = true ->
                          forall st, unresolved st (addEvent e st))
    by exact unresolved_addEvent.
  unfold pollOnce, pollOnce_enter, pollOnce_try, pollOnce_catch, pollOnce_finally,
    playersQuery, setPresence, console_log, console_error, sleep.
  steps_auto; eauto.
Qed.

End Unresolved.

(** X11. While the channel is not resolved a cycle reaches the channel
    in no way: it sends no message and writes no topic, whatever the
    server answers, and it leaves the channel unresolved and
    [lastCount] as it was. *)
Theorem pollOnce_unresolved_channel (E : env) (st st' : state)
    (c : completion unit) :
  targetChannel st = None ->
  pollOnce E st = (c, st') ->
  targetChannel st' = None
  /\ lastCount st' = lastCount st
  /\ exists evs, trace st' = trace st ++ evs /\ forallb offChannel evs = true.
Proof.
  intros Hnone Hrun. exact (unresolved_pollOnce E st c st' Hrun Hnone).
Qed.

Lemma pollOnce_unresolved_channel_witness :
  let E := Scenario.calm (lit "Players connected (3):") (lit "Zed was bitten") in
  let st' := snd (pollOnce E Scenario2.unready) in
  targetChannel st' = None
  /\ lastCount st' = lastCount Scenario2.unready
  /\ exists evs, trace st' = trace Scenario2.unready ++ evs
                 /\ forallb offChannel evs = true.
Proof.
  intros E st'.
  apply (pollOnce_unresolved_channel E Scenario2.unready st'
           (fst (pollOnce E Scenario2.unready))).
  - reflexivity.
  - reflexivity.
Defined.

(** ** Publishing *)

Section Publishing.

Variable E : env.

Lemma removeWhiteSpace_nil (s : str) :
  removeWhiteSpace s = [] -> forallb isWhiteSpace s = true.
Proof.
  unfold removeWhiteSpace. induction s as [|c s IH]; [reflexivity|].
  cbn [filter forallb]. destruct (isWhiteSpace c); cbn [negb]; [exact IH|].
  discriminate.
Qed.

(** After the test of [trimmed] the guard "only whitespace or empty"
    of the source cannot fire. *)
Lemma second_guard_is_dead (response : str) :
  isEmpty (trim response) = false ->
  isEmpty response || isEmpty (removeWhiteSpace response) = false.
Proof.
  intros Ht. destruct response as [|c response]; [discriminate|].
  cbn [isEmpty orb].
  destruct (removeWhiteSpace (c :: response)) as [|x xs] eqn:Erm; [|reflexivity].
  apply removeWhiteSpace_nil in Erm.
  rewrite (trim_whitespace _ Erm) in Ht. discriminate.
Qed.

Lemma addEvents_addEvent (e : event) (evs : list event) (st : state) :
  addEvents evs (addEvent e st) = addEvents (e :: evs) st.
Proof. unfold addEvents, addEvent. cbn. now rewrite <- app_assoc. Qed.

Lemma sendParts_all_fulfilled (parts : list str) :
  (forall t h, channelSendResult E t h = Fulfilled tt) ->
  forall st,
    sendParts E parts st =
      (Normal tt, addEvents (map (fun c => ChannelSend c (Fulfilled tt)) parts) st).
Proof.
  intros Hok. induction parts as [|part rest IH]; intros st.
  - cbn. now rewrite addEvents_nil.
  - cbn [sendParts map]. unfold bind, await. rewrite Hok, IH.
    now rewrite addEvents_addEvent.
Qed.

End Publishing.

(** X12. With the channel resolved, a response that is not blank and a
    chat platform that accepts every message, the response is published
    trimmed: after the two log lines the messages sent are chunks of at
    most 1900 characters, none empty, that concatenate in the order
    sent to the trimmed response. *)
Theorem pollOnce_publish_in_order (E : env) (response : str) (st : state)
    (channel : TextChannel) :
  targetChannel st = Some channel ->
  isEmpty (trim response) = false ->
  (forall t h, channelSendResult E t h = Fulfilled tt) ->
  exists chunks,
    pollOnce_publish E response st =
      (Normal tt,
       addEvents
         ([ConsoleLog (lit "response:"); ConsoleLog response]
            ++ map (fun c => ChannelSend c (Fulfilled tt)) chunks)
         st)
    /\ concat chunks = trim response
    /\ Forall (fun c => (len c <= 1900)%Z) chunks
    /\ Forall (fun c => c <> []) chunks.
Proof.
  intros Hch Ht Hok.
  destruct (splitMessage_loop_spec (trim response) 1900 ltac:(lia)
              (length (trim response)) 0%Z [])
    as (chunks & Hsplit & Hcat & Hall & _); try (unfold len; lia).
  cbn [app] in Hsplit. change (Z.to_nat 0) with 0 in Hcat. cbn [skipn] in Hcat.
  exists chunks. repeat split; auto.
  - unfold pollOnce_publish. cbv zeta. rewrite Ht.
    unfold bind at 1, gets at 1. rewrite Hch.
    unfold bind at 1, console_log at 1, record at 1.
    unfold bind at 1, console_log at 1, record at 1.
    rewrite (second_guard_is_dead _ Ht).
    unfold bind at 1, callSplitMessage. unfold splitMessage. rewrite Hsplit.
    rewrite sendParts_all_fulfilled by exact Hok.
    now rewrite !addEvents_addEvent.
  - eapply splitMessage_loop_nonempty; [| | | exact Hsplit];
      [lia | lia | constructor].
Qed.

Lemma pollOnce_publish_in_order_witness :
  exists chunks,
    pollOnce_publish (Scenario.calm (lit "") (lit "")) (lit "  Zed was bitten ")
      Scenario.ready =
      (Normal tt,
       addEvents
         ([ConsoleLog (lit "response:"); ConsoleLog (lit "  Zed was bitten ")]
            ++ map (fun c => ChannelSend c (Fulfilled tt)) chunks)
         Scenario.ready)
    /\ concat chunks = trim (lit "  Zed was bitten ")
    /\ Forall (fun c => (len c <= 1900)%Z) chunks
    /\ Forall (fun c : str => c <> []) chunks.
Proof.
  apply (pollOnce_publish_in_order (Scenario.calm (lit "") (lit ""))
           (lit "  Zed was bitten ") Scenario.ready (mkChannel true)).
  - reflexivity.
  - reflexivity.
  - reflexivity.
Defined.

(** X13. Publishing stops at the first message the chat platform
    refuses.  When the messages [pre] are accepted one after the other
    from the history of the call, and the platform then refuses [part]
    (at the history those sends have made), the messages of [pre] were
    sent, [part] was attempted, the messages after it are not sent and
    the fault is thrown to the handler of the cycle.  The answers are
    those at the histories the call goes through, so a refused message
    may carry the text of an accepted one. *)
Theorem sendParts_stops_at_first_fault (E : env) (pre post : list str)
    (part : str) (err : fault) (st : state) :
  Publish.acceptedFrom E (trace st) pre ->
  channelSendResult E part (trace st ++ map Publish.sent pre) = Rejected err ->
  sendParts E (pre ++ part :: post) st =
    (Throw err,
     addEvents
       (map (fun c => ChannelSend c (Fulfilled tt)) pre
          ++ [ChannelSend part (Rejected err)])
       st).
Proof.
  revert st.
  induction pre as [|p0 pre IH]; intros st Hpre Hbad.
  - cbn [app sendParts map]. unfold bind, await.
    cbn [map] in Hbad. rewrite app_nil_r in Hbad. now rewrite Hbad.
  - cbn [app sendParts map]. unfold bind, await.
    destruct Hpre as [Hp0 Hpre]. rewrite Hp0.
    rewrite IH.
    + now rewrite addEvents_addEvent.
    + exact Hpre.
    + cbn [trace addEvent]. rewrite <- app_assoc. exact Hbad.
Qed.

Lemma sendParts_stops_at_first_fault_witness :
  sendParts (Scenario2.laterSendsRefused Scenario.forbidden)
    ([lit "x"] ++ lit "x" :: [lit "y"]) Scenario.ready =
    (Throw Scenario.forbidden,
     addEvents
       (map (fun c => ChannelSend c (Fulfilled tt)) [lit "x"]
          ++ [ChannelSend (lit "x") (Rejected Scenario.forbidden)])
       Scenario.ready).
Proof.
  apply (sendParts_stops_at_first_fault
           (Scenario2.laterSendsRefused Scenario.forbidden)
           [lit "x"] [lit "y"] (lit "x") Scenario.forbidden Scenario.ready).
  - split; reflexivity.
  - reflexivity.
Defined.

(** ** The status query answered *)

(** Counts as the code has them: the digits are read as a double and
    rendered by [Number::toString]. *)
Example topicText_rounded_count :
  topicText (parsePlayerCount (lit "Players connected (9007199254740993):"))
  = lit "Players online: 9007199254740992".
Proof. vm_compute. reflexivity. Qed.

Example presenceName_exponent_form :
  presenceName (parsePlayerCount (lit "Players connected (1000000000000000000000):"))
  = lit "1e+21 survivors online".
Proof. vm_compute. reflexivity. Qed.

Example presenceName_below_exponent_form :
  presenceName (parsePlayerCount (lit "Players connected (123456789012345678901):"))
  = lit "123456789012345680000 survivors online".
Proof. vm_compute. reflexivity. Qed.

Example numberToString_shortest_digits :
  numberToString (toNumber (lit "123456789012345678901234567890"))
  = lit "1.2345678901234568e+29".
Proof. vm_compute. reflexivity. Qed.

Example numberToString_overflow :
  numberToString (toNumber (repeat "9"%char 400)) = lit "Infinity".
Proof. vm_compute. reflexivity. Qed.

(** X14. When the status query is answered, the presence is set from
    the parsed count in every such cycle, changed or not; the topic is
    written only on a resolved channel and only when the count differs
    from [lastCount], which then holds the count; and the event query
    is issued next. *)
Theorem pollOnce_status_answered (E : env) (st : state) (resp : str) :
  let n := parsePlayerCount resp in
  let h :=
    trace st ++ [ ConsoleLog (pollingMessage E);
                  RconConnect (Fulfilled tt);
                  RconSend (lit "players") (Fulfilled resp) ] in
  connectResult E (trace st ++ [ConsoleLog (pollingMessage E)]) = Fulfilled tt ->
  sendResult E (lit "players")
    (trace st ++ [ConsoleLog (pollingMessage E); RconConnect (Fulfilled tt)])
    = Fulfilled resp ->
  clientUser E = true ->
  setPresenceResult E (presenceName n) h = Fulfilled tt ->
  exists st' r rest,
    pollOnce E st = (Normal tt, st')
    /\ trace st' =
         (h ++ [SetPresence (presenceName n) (Fulfilled tt)])
           ++ match targetChannel st with
              | Some channel =>
                  if (n =? lastCount st)%Z then []
                  else topicEvents E channel n
                         (h ++ [SetPresence (presenceName n) (Fulfilled tt)])
              | None => []
              end
           ++ RconSend COMMAND r :: rest
    /\ lastCount st' =
         match targetChannel st with
         | Some _ => n
         | None => lastCount st
         end.
Proof.
  intros n h Hc Hs Hu Hp.
  pose proof (pollOnce_prologue_connected E st Hc) as HP.
  set (stC := mkState (targetChannel st) (lastCount st) true
                (trace st ++ [ConsoleLog (pollingMessage E);
                              RconConnect (Fulfilled tt)])) in HP.
  unfold playersQuery, try_catch in HP.
  unfold bind at 1, await at 1 in HP.
  change (trace stC) with
    (trace st ++ [ConsoleLog (pollingMessage E); RconConnect (Fulfilled tt)]) in HP.
  rewrite Hs in HP.
  set (stF := addEvent (RconSend (lit "players") (Fulfilled resp)) stC) in HP.
  assert (HtF : trace stF = h).
  { unfold stF, stC, addEvent, h. cbn. now rewrite <- app_assoc. }
  cbv zeta in HP. fold n in HP.
  unfold bind at 1, setPresence, await in HP. rewrite Hu, HtF, Hp in HP.
  set (stG := addEvent (SetPresence (presenceName n) (Fulfilled tt)) stF) in HP.
  assert (HtG : trace stG = h ++ [SetPresence (presenceName n) (Fulfilled tt)]).
  { unfold stG, addEvent. cbn [trace]. now rewrite HtF. }
  assert (Hup : exists stH,
             updateChannelTopicIfChanged E n stG = (Normal tt, stH)
             /\ trace stH =
                  trace stG ++
                  match targetChannel st with
                  | Some channel =>
                      if (n =? lastCount st)%Z then []
                      else topicEvents E channel n (trace stG)
                  | None => []
                  end
             /\ lastCount stH =
                  match targetChannel st with
                  | Some _ => n
                  | None => lastCount st
                  end).
  { destruct (targetChannel st) as [channel|] eqn:Hch.
    - destruct (Z.eq_dec n (lastCount st)) as [Heq | Hne].
      + exists stG. rewrite (updateChannelTopicIfChanged_same E n stG Heq).
        rewrite Heq at 1. rewrite Z.eqb_refl, app_nil_r. auto.
      + rewrite (updateChannelTopicIfChanged_differs E n stG channel eq_refl Hne).
        apply Z.eqb_neq in Hne. rewrite Hne. eexists. repeat split.
    - exists stG. rewrite app_nil_r. repeat split. }
  destruct Hup as (stH & Hrun & HtH & HlH).
  rewrite Hrun in HP.
  destruct (pollOnce_from_prologue E st stH (Normal tt) HP ltac:(discriminate))
    as (st' & rest & Hrun' & Ht' & Hl' & Hrest).
  destruct (Hrest eq_refl) as (r & rest' & ->).
  exists st', r, rest'. split; [exact Hrun'|]. split.
  - rewrite Ht', HtH, HtG. now rewrite <- !app_assoc.
  - now rewrite Hl'.
Qed.

Lemma pollOnce_status_answered_witness :
  let E := Scenario.calm (lit "Players connected (1):") (lit "") in
  let h :=
    trace Scenario.ready
      ++ [ ConsoleLog (pollingMessage E);
           RconConnect (Fulfilled tt);
           RconSend (lit "players") (Fulfilled (lit "Players connected (1):")) ] in
  exists st' r rest,
    pollOnce E Scenario.ready = (Normal tt, st')
    /\ trace st' =
         (h ++ [SetPresence (lit "1 survivor online") (Fulfilled tt)])
           ++ [SetTopic (lit "Players online: 1") (Fulfilled tt)]
           ++ RconSend COMMAND r :: rest
    /\ lastCount st' = 1%Z.
Proof.
  intros E h.
  apply (pollOnce_status_answered E Scenario.ready (lit "Players connected (1):")).
  - reflexivity.
  - reflexivity.
  - reflexivity.
  - reflexivity.
Defined.

(** ** The relay without presence *)

Section RelayFacts.

Variable E : env.

Lemma relay_blocks (st : state) :
  Relay.pollOnce E st =
    match Relay.pollOnce_try E (entered st) with
    | (Normal _, st1) => (Normal tt, addEvents (finallyEvents E st1) st1)
    | (Throw err, st1) =>
        let st2 := addEvents (catchEvents err) st1 in
        (Normal tt, addEvents (finallyEvents E st2) st2)
    | (Hang, st1) => (Hang, st1)
    end.
Proof.
  unfold Relay.pollOnce, pollOnce_enter, bind, set_rcon, try_finally, try_catch.
  fold (entered st).
  destruct (Relay.pollOnce_try E (entered st)) as [[[] | err |] st1].
  - now rewrite pollOnce_finally_run.
  - rewrite pollOnce_catch_run. cbv zeta. now rewrite pollOnce_finally_run.
  - reflexivity.
Qed.

Lemma runs_relay_try (p : event -> bool) :
  (forall m, p (ConsoleLog m) = true) ->
  (forall r, p (RconConnect r) = true) ->
  (forall r, p (RconSend Relay.COMMAND r) = true) ->
  (forall t r, p (ChannelSend t r) = true) ->
  runs p true (Relay.pollOnce_try E).
Proof.
  intros. unfold Relay.pollOnce_try, console_log. cbv zeta. runs_auto.
Qed.

End RelayFacts.

Lemma catchEvents_relay (err : fault) :
  forallb Relay.isRelayEvent (catchEvents err) = true.
Proof. unfold catchEvents. now destruct (isConnectionClosed err). Qed.

Lemma finallyEvents_relay (E : env) (st : state) :
  forallb Relay.isRelayEvent (finallyEvents E st) = true.
Proof. unfold finallyEvents. now destruct (rcon st). Qed.

(** X15. The relay without presence returns normally too, whatever the
    libraries answer.  Beside its log lines and its cooldown it only
    connects, sends its one command, sends to the channel and releases
    the session: it never sets a presence or a topic, and [lastCount]
    and the channel are as before. *)
Theorem relay_pollOnce_contained (E : env) (st : state) :
  exists st' evs,
    Relay.pollOnce E st = (Normal tt, st')
    /\ trace st' = trace st ++ evs
    /\ forallb Relay.isRelayEvent evs = true
    /\ lastCount st' = lastCount st
    /\ targetChannel st' = targetChannel st.
Proof.
  rewrite relay_blocks.
  destruct (Relay.pollOnce_try E (entered st)) as [c st1] eqn:Htry.
  destruct (runs_relay_try E Relay.isRelayEvent
              ltac:(reflexivity) ltac:(reflexivity) ltac:(reflexivity)
              ltac:(reflexivity) _ _ _ Htry)
    as (Hn & Hch & Hkeep & evs1 & Ht1 & Hp1).
  specialize (Hkeep eq_refl). cbn [entered trace lastCount targetChannel] in *.
  destruct c as [[] | err |]; [| | congruence].
  - eexists. exists (evs1 ++ finallyEvents E st1).
    split; [reflexivity|]. cbn [trace addEvents lastCount targetChannel].
    repeat split; auto.
    + now rewrite Ht1, app_assoc.
    + now rewrite forallb_app, Hp1, finallyEvents_relay.
  - cbv zeta. eexists.
    exists (evs1 ++ catchEvents err
              ++ finallyEvents E (addEvents (catchEvents err) st1)).
    split; [reflexivity|]. cbn [trace addEvents lastCount targetChannel].
    repeat split; auto.
    + now rewrite Ht1, <- !app_assoc.
    + now rewrite !forallb_app, Hp1, catchEvents_relay, finallyEvents_relay.
Qed.

(** X16. The relay without presence publishes the response as it came:
    one message holding the whole response, neither trimmed nor split,
    whatever its length. *)
Theorem relay_publishes_raw (E : env) (st : state) (response : str)
    (channel : TextChannel) :
  (forall h, connectResult E h = Fulfilled tt) ->
  (forall h, sendResult E Relay.COMMAND h = Fulfilled response) ->
  (forall h, channelSendResult E response h = Fulfilled tt) ->
  targetChannel st = Some channel ->
  isEmpty (trim response) = false ->
  exists st' r,
    Relay.pollOnce E st = (Normal tt, st')
    /\ trace st' =
         trace st
           ++ [ ConsoleLog (pollingMessage E);
                RconConnect (Fulfilled tt);
                RconSend Relay.COMMAND (Fulfilled response);
                ConsoleLog (lit "response:");
                ConsoleLog response;
                ChannelSend response (Fulfilled tt);
                RconEnd r ].
Proof.
  intros Hc Hs Hok Hch Ht.
  assert (Htry :
    Relay.pollOnce_try E (entered st) =
      (Normal tt,
       addEvents
         [ ConsoleLog (pollingMessage E);
           RconConnect (Fulfilled tt);
           RconSend Relay.COMMAND (Fulfilled response);
           ConsoleLog (lit "response:");
           ConsoleLog response;
           ChannelSend response (Fulfilled tt) ]
         (mkState (targetChannel st) (lastCount st) true (trace st)))).
  { unfold Relay.pollOnce_try.
    unfold bind at 1, console_log at 1, record at 1.
    unfold bind at 1, await at 1. rewrite Hc.
    unfold bind at 1, set_rcon at 1.
    unfold bind at 1, await at 1. rewrite Hs.
    cbv zeta. rewrite Ht.
    unfold bind at 1, gets at 1. unfold addEvent, entered.
    cbn [targetChannel lastCount rcon trace]. rewrite Hch.
    unfold bind at 1, console_log at 1, record at 1.
    unfold bind at 1, console_log at 1, record at 1.
    rewrite (second_guard_is_dead _ Ht).
    unfold await. rewrite Hok.
    unfold addEvent, addEvents. cbn [targetChannel lastCount rcon trace].
    now rewrite <- !app_assoc. }
  rewrite relay_blocks, Htry.
  eexists. eexists. split; [reflexivity|].
  unfold finallyEvents. cbn [trace addEvents rcon].
  now rewrite <- !app_assoc.
Qed.

Lemma relay_publishes_raw_witness :
  let response := lit " " ++ repeat "x"%char 2500 in
  let E := Scenario.calm (lit "") response in
  exists st' r,
    Relay.pollOnce E Scenario.ready = (Normal tt, st')
    /\ trace st' =
         trace Scenario.ready
           ++ [ ConsoleLog (pollingMessage E);
                RconConnect (Fulfilled tt);
                RconSend Relay.COMMAND (Fulfilled response);
                ConsoleLog (lit "response:");
                ConsoleLog response;
                ChannelSend response (Fulfilled tt);
                RconEnd r ].
Proof.
  intros response E.
  apply (relay_publishes_raw E Scenario.ready response (mkChannel true)).
  - intros h. reflexivity.
  - intros h. reflexivity.
  - intros h. reflexivity.
  - reflexivity.
  - vm_compute. reflexivity.
Defined.

(** ** Startup *)

Import Startup.

Section StartupFacts.

Variable E : env.

(** The first event of a cycle is its "polling" line, and a cycle keeps
    the channel. *)
Lemma pollOnce_summary (st : state) :
  exists st' evs,
    pollOnce E st = (Normal tt, st')
    /\ targetChannel st' = targetChannel st
    /\ trace st' = trace st ++ ConsoleLog (pollingMessage E) :: evs.
Proof.
  rewrite pollOnce_blocks.
  destruct (pollOnce_try E (entered st)) as [c st1] eqn:Htry.
  assert (Hrest : exists evs1,
             c <> Hang /\ targetChannel st1 = targetChannel st
             /\ trace st1 = trace st ++ ConsoleLog (pollingMessage E) :: evs1).
  { unfold pollOnce_try in Htry.
    unfold bind at 1, console_log at 1, record at 1 in Htry.
    assert (Hruns : runs (fun _ => true) false
              (await RconConnect (connectResult E) ;;
               set_rcon true ;;
               playersQuery E ;;
               response <- await (RconSend COMMAND) (sendResult E COMMAND) ;;
               pollOnce_publish E response)).
    { runs_auto; auto using runs_playersQuery.
      apply runs_forget. now apply runs_pollOnce_publish. }
    destruct (Hruns _ _ _ Htry) as (Hn & Hch & _ & evs1 & Ht1 & _).
    exists evs1. cbn [addEvent entered trace targetChannel] in *.
    repeat split; auto. now rewrite Ht1, <- app_assoc. }
  destruct Hrest as (evs1 & Hn & Hch & Ht1).
  destruct c as [[] | err |]; [| | congruence].
  - eexists. exists (evs1 ++ finallyEvents E st1).
    split; [reflexivity|]. cbn [trace addEvents targetChannel].
    split; [exact Hch|]. now rewrite Ht1, <- app_assoc.
  - cbv zeta. eexists.
    exists (evs1 ++ catchEvents err
              ++ finallyEvents E (addEvents (catchEvents err) st1)).
    split; [reflexivity|]. cbn [trace addEvents targetChannel].
    split; [exact Hch|]. now rewrite Ht1, <- !app_assoc.
Qed.

End StartupFacts.

(** X17. When the channel cannot be resolved (the fetch is rejected,
    resolves to null, or resolves to a channel that is not a guild text
    channel) the process reports the fault and exits with status 1
    before any polling: the server is not contacted and the channel
    stays unresolved. *)
Theorem onReady_fails_fast (E : env) (fetch : settled (option fetched))
    (tag pollMs : str) (st : state) :
  match fetch with
  | Fulfilled (Some c) => isGuildText c = false
  | _ => True
  end ->
  exists err,
    onReady E fetch tag pollMs st =
      (ProcessExit 1,
       addEvent (ConsoleError (lit "Failed to initialize channel:") err) st)
    /\ match fetch with
       | Rejected e => err = e
       | _ => err = notTextChannel
       end.
Proof.
  intros H. unfold onReady, onReady_try, bind, throw.
  destruct fetch as [[c|] | e].
  - rewrite H. cbn [negb]. eexists. split; reflexivity.
  - eexists. split; reflexivity.
  - eexists. split; reflexivity.
Qed.

Lemma onReady_fails_fast_witness :
  exists err,
    onReady (Scenario.calm (lit "") (lit ""))
      (Fulfilled (Some (mkFetched false (mkChannel false))))
      (lit "bot#0001") (lit "10000") initialState =
      (ProcessExit 1,
       addEvent (ConsoleError (lit "Failed to initialize channel:") err)
         initialState)
    /\ err = notTextChannel.
Proof.
  apply (onReady_fails_fast (Scenario.calm (lit "") (lit ""))
           (Fulfilled (Some (mkFetched false (mkChannel false))))
           (lit "bot#0001") (lit "10000") initialState).
  reflexivity.
Defined.

(** X18. Once the fetch resolved to a guild text channel the startup
    cannot fail any more: the channel is stored, the readiness line is
    logged, the first cycle runs at once with the channel resolved, and
    the handler ends with the timer armed, whatever happened in that
    first cycle. *)
Theorem onReady_starts_polling (E : env) (c : fetched) (tag pollMs : str)
    (st : state) :
  isGuildText c = true ->
  exists st' evs,
    onReady E (Fulfilled (Some c)) tag pollMs st = (TimerArmed, st')
    /\ targetChannel st' = Some (asTextChannel c)
    /\ trace st' =
         trace st
           ++ ConsoleLog (readyMessage tag pollMs)
           :: ConsoleLog (pollingMessage E) :: evs.
Proof.
  intros Hg. unfold onReady, onReady_try.
  unfold bind at 1. rewrite Hg. cbn [negb].
  unfold bind at 1, set_targetChannel.
  unfold bind at 1, console_log, record.
  set (stR := addEvent (ConsoleLog (readyMessage tag pollMs))
                (mkState (Some (asTextChannel c)) (lastCount st) (rcon st) (trace st))).
  destruct (pollOnce_summary E stR) as (st' & evs & Hrun & Hch & Ht).
  rewrite Hrun. exists st', evs. split; [reflexivity|].
  split; [exact Hch|].
  rewrite Ht. unfold stR, addEvent. cbn [trace]. now rewrite <- app_assoc.
Qed.

Lemma onReady_starts_polling_witness :
  let E := Scenario.unreachable Scenario.closed in
  exists st' evs,
    onReady E (Fulfilled (Some (mkFetched true (mkChannel true))))
      (lit "bot#0001") (lit "10000") initialState = (TimerArmed, st')
    /\ targetChannel st' = Some (mkChannel true)
    /\ trace st' =
         trace initialState
           ++ ConsoleLog (readyMessage (lit "bot#0001") (lit "10000"))
           :: ConsoleLog (pollingMessage E) :: evs.
Proof.
  intros E.
  apply (onReady_starts_polling E (mkFetched true (mkChannel true))
           (lit "bot#0001") (lit "10000") initialState).
  reflexivity.
Defined.
